(** * Garsone QR tile codes: a shallow embedding of [gen_qr_urls.py]

    The script draws random 40-bit integers, writes each as eight
    Crockford base-32 symbols, formats them as [GT-XXXX-XXXX] and
    appends the fresh ones to a text file, after reading back the codes
    the file already holds.

    Python values are modelled as follows.
    - [str]: a list of Unicode code points ([list N]).
    - [int]: [Z], with [Z.land] and [Z.shiftr] for [&] and [>>].
    - [set] of [str]: [gset (list N)].
    - the file system: a finite map from paths to the text of each
      regular file, as the UTF-8 decoder yields it, together with a log
      of the [write] calls made. Every file of the map can be read and
      appended to; a line feed is written as it is (POSIX).
    - [secrets.randbits]: reads the next word of an entropy stream.
    - exceptions and the unbounded [while] loop: a three-valued
      [outcome], the loop running on fuel.

    Of [main], the reading of the command line is argparse's; the
    embedding starts from the options argparse has found. *)

From Stdlib Require Import ZArith List Ascii DecimalString.
From stdpp Require Import base numbers list strings gmap sets.

Open Scope Z_scope.

#[local] Set Warnings "-clear-no-such-hyp".

(** ** Text *)

Abbreviation text := (list N).

(** A Python string literal, as the list of its code points. *)
Fixpoint str_of (s : string) : text :=
  match s with
  | EmptyString => []
  | String a r => N_of_ascii a :: str_of r
  end.

Definition LF : N := 10%N.
Definition CR : N := 13%N.

(** The tables of the Python runtime that the script relies on but does
    not contain: [str.isspace] and [str.upper] outside ASCII. On ASCII
    both are written out below. *)
Record unicode_tables := UnicodeTables {
  uni_isspace : N -> bool;
  uni_upper : N -> text
}.

(** The tables that leave every non-ASCII code point alone. *)
Definition plain_tables : unicode_tables :=
  {| uni_isspace := fun _ => false; uni_upper := fun c => [c] |}.

(** ASCII white space of [str.isspace]: TAB, LF, VT, FF, CR, FS, GS, RS,
    US and the space. *)
Definition ascii_isspace (c : N) : bool :=
  ((9 <=? c) && (c <=? 13) || (28 <=? c) && (c <=? 32))%N.

Definition ascii_upper (c : N) : N :=
  if ((97 <=? c) && (c <=? 122))%N then (c - 32)%N else c.

Definition is_space (U : unicode_tables) (c : N) : bool :=
  if (c <? 128)%N then ascii_isspace c else uni_isspace U c.

Definition upper_char (U : unicode_tables) (c : N) : text :=
  if (c <? 128)%N then [ascii_upper c] else uni_upper U c.

(** [s.upper()] *)
Definition str_upper (U : unicode_tables) (s : text) : text :=
  flat_map (upper_char U) s.

Fixpoint lstrip (U : unicode_tables) (s : text) : text :=
  match s with
  | [] => []
  | c :: r => if is_space U c then lstrip U r else s
  end.

Definition rstrip (U : unicode_tables) (s : text) : text :=
  rev (lstrip U (rev s)).

(** [s.strip()] *)
Definition str_strip (U : unicode_tables) (s : text) : text :=
  rstrip U (lstrip U s).

(** [s.startswith(p)] *)
Fixpoint startswith (p s : text) : bool :=
  match p, s with
  | [], _ => true
  | _ :: _, [] => false
  | a :: p', b :: s' => (a =? b)%N && startswith p' s'
  end.

(** Iterating over a file opened in text mode with universal newlines:
    the lines of the content, each closed by a line feed, except that
    a last line without terminator is yielded as it is. CR LF and a
    lone CR both end a line and are read as LF. *)
Fixpoint file_lines (s : text) : list text :=
  match s with
  | [] => []
  | c :: r =>
      if (c =? LF)%N then [LF] :: file_lines r
      else if (c =? CR)%N then
        match r with
        | [] => [[LF]]
        | c2 :: r' =>
            if (c2 =? LF)%N then [LF] :: file_lines r'
            else [LF] :: file_lines r
        end
      else
        match file_lines r with
        | [] => [[c]]
        | l :: ls => (c :: l) :: ls
        end
  end.

(** ** Outcomes of a run *)

Inductive exn : Type :=
| ValueError
| FileNotFoundError.

(** A call returns a value, raises, or is still looping when the fuel
    given to the model is spent. *)
Inductive outcome (A : Type) : Type :=
| Ret (a : A)
| Raise (e : exn)
| OutOfFuel.

Arguments Ret {A} a.
Arguments Raise {A} e.
Arguments OutOfFuel {A}.

#[global] Instance outcome_ret : MRet outcome := fun A a => Ret a.

#[global] Instance outcome_bind : MBind outcome := fun A B k m =>
  match m with
  | Ret a => k a
  | Raise e => Raise e
  | OutOfFuel => OutOfFuel
  end.

(** ** The random source *)

(** One outcome of the operating system's entropy source: an endless
    sequence of raw words, and how many of them have been consumed. *)
Record rand := Rand {
  raw : nat -> Z;
  pos : nat
}.

Definition advance (r : rand) : rand :=
  {| raw := raw r; pos := S (pos r) |}.

(** [secrets.randbits(k)]: a non-negative integer of [k] random bits,
    taken from the next raw word; a negative [k] is a [ValueError]. *)
Definition randbits (k : Z) (r : rand) : outcome (Z * rand) :=
  if k <? 0 then Raise ValueError
  else Ret (raw r (pos r) mod 2 ^ k, advance r).

(** ** The generator *)

Definition CROCKFORD32 : text := str_of "0123456789ABCDEFGHJKMNPQRSTVWXYZ".

(** [CROCKFORD32[i]]; the index is always [value & 0b11111], which
    lies in [0, 32) (lemma [low5_range]), so the default is never
    returned. *)
Definition crockford_at (i : Z) : N := nth (Z.to_nat i) CROCKFORD32 0%N.

(** The [for] loop of [random_crockford]: [chars] grows at its end, and
    [value] loses its five low bits, once per iteration. *)
Fixpoint crockford_loop (iters : nat) (value : Z) (chars : text) : text :=
  match iters with
  | O => chars
  | S k =>
      crockford_loop k (Z.shiftr value 5)
        (chars ++ [crockford_at (Z.land value 31)])
  end.

Definition random_crockford (n_chars : Z) (r : rand) : outcome (text * rand) :=
  let n_bits := n_chars * 5 in
  '(value, r') ← randbits n_bits r;
  let chars := crockford_loop (Z.to_nat n_chars) value [] in
  Ret (rev chars, r').

Definition format_gt (code8 : text) : text :=
  str_of "GT-" ++ take 4 code8 ++ str_of "-" ++ drop 4 code8.

(** ** Files *)

Record world := World {
  files : gmap string text;
  write_log : list (string * text)
}.

(** [os.path.exists] *)
Definition path_exists (w : world) (path : string) : bool :=
  bool_decide (is_Some (files w !! path)).

(** [open(path, "r")] followed by reading the whole file. *)
Definition read_text (w : world) (path : string) : outcome text :=
  match files w !! path with
  | Some content => Ret content
  | None => Raise FileNotFoundError
  end.

(** [open(path, "a")]: the file is created, empty, when it is absent. *)
Definition open_append (w : world) (path : string) : world :=
  match files w !! path with
  | Some _ => w
  | None => {| files := <[path := []]> (files w); write_log := write_log w |}
  end.

(** [f.write(data)] on a file opened for appending. *)
Definition file_write (w : world) (path : string) (data : text) : world :=
  {| files := <[path := default [] (files w !! path) ++ data]> (files w);
     write_log := write_log w ++ [(path, data)] |}.

(** The body of the [for line in f] loop of [load_existing]. *)
Definition load_line (U : unicode_tables) (existing : gset text) (line : text)
  : gset text :=
  let s := str_upper U (str_strip U line) in
  if startswith (str_of "GT-") s && (Z.of_nat (length s) =? 11)
  then {[ s ]} ∪ existing
  else existing.

Definition load_existing (U : unicode_tables) (w : world) (out_path : string)
  : outcome (gset text) :=
  let existing : gset text := ∅ in
  if negb (path_exists w out_path) then Ret existing
  else
    content ← read_text w out_path;
    Ret (foldl (load_line U) existing (file_lines content)).

(** The [while] loop of [generate]. Each iteration uses one unit of
    fuel; the test of the loop uses none. *)
Fixpoint generate_loop (fuel : nat) (count : Z) (r : rand)
    (existing : gset text) (new_codes : list text)
  : outcome (gset text * list text * rand) :=
  if Z.of_nat (length new_codes) <? count then
    match fuel with
    | O => OutOfFuel
    | S fuel' =>
        '(sym, r') ← random_crockford 8 r;
        let code := format_gt sym in
        if bool_decide (code ∈ existing)
        then generate_loop fuel' count r' existing new_codes
        else generate_loop fuel' count r' ({[ code ]} ∪ existing)
               (new_codes ++ [code])
    end
  else Ret (existing, new_codes, r).

(** The [with open(out_path, "a")] block of [generate]. *)
Definition append_codes (w : world) (out_path : string) (new_codes : list text)
  : world :=
  foldl (fun w' code => file_write w' out_path (code ++ [LF]))
        (open_append w out_path) new_codes.

(** The codes accepted by a run: the value of [new_codes] when the
    [while] loop is left. *)
Definition generate_codes (U : unicode_tables) (fuel : nat) (count : Z)
    (out_path : string) (r : rand) (w : world) : outcome (list text) :=
  existing ← load_existing U w out_path;
  '(_, new_codes, _) ← generate_loop fuel count r existing [];
  Ret new_codes.

(** [generate] returns [len(new_codes)]; the model also gives the world
    and the random source it leaves behind. *)
Definition generate (U : unicode_tables) (fuel : nat) (count : Z)
    (out_path : string) (r : rand) (w : world) : outcome (Z * world * rand) :=
  existing ← load_existing U w out_path;
  '(_, new_codes, r') ← generate_loop fuel count r existing [];
  let w' := append_codes w out_path new_codes in
  Ret (Z.of_nat (length new_codes), w', r').

(** ** The specification's base-32 representation *)

(** The [n] base-32 digits of [v], most significant first: digit [i]
    is [v / 32^(n-1-i) mod 32]. *)
Definition base32_digits (n : nat) (v : Z) : list Z :=
  map (fun i => (v / 32 ^ Z.of_nat (n - 1 - i)) mod 32) (seq 0 n).

(** The digits written with the alphabet as digit symbols. *)
Definition base32_repr (n : nat) (v : Z) : text :=
  map crockford_at (base32_digits n v).

(** The number a list of base-32 digits denotes, most significant
    digit first. *)
Definition base32_value (ds : list Z) : Z :=
  foldl (fun acc d => acc * 32 + d) 0 ds.

(** The digits in the order the loop extracts them. *)
Fixpoint low_digits (n : nat) (v : Z) : list Z :=
  match n with
  | O => []
  | S k => Z.land v 31 :: low_digits k (Z.shiftr v 5)
  end.

(** ** The shape of a code *)

Definition is_crockford (c : N) : bool := bool_decide (c ∈ CROCKFORD32).

(** The character class [[A-Z0-9]]. *)
Definition is_upper_alnum (c : N) : bool :=
  ((48 <=? c) && (c <=? 57) || (65 <=? c) && (c <=? 90))%N.

(** A full match of [GT-Cx4-Cx4], where [C] is the class [cls]. *)
Definition gt_match (cls : N -> bool) (s : text) : bool :=
  match s with
  | [g; t; h1; a; b; c; d; h2; e; f; i; j] =>
      (g =? 71)%N && (t =? 84)%N && (h1 =? 45)%N && (h2 =? 45)%N
      && forallb cls [a; b; c; d; e; f; i; j]
  | _ => false
  end.

(** ** What a random source delivers *)

(** The code the next iteration of the loop draws. *)
Definition next_code (r : rand) : text :=
  format_gt (base32_repr 8 (raw r (pos r) mod 2 ^ 40)).

(** The next [n] 40-bit integers of the source. *)
Fixpoint draws (n : nat) (r : rand) : list Z :=
  match n with
  | O => []
  | S k => raw r (pos r) mod 2 ^ 40 :: draws k (advance r)
  end.

(** The codes of the next [n] iterations. *)
Fixpoint drawn_codes (n : nat) (r : rand) : list text :=
  match n with
  | O => []
  | S k => next_code r :: drawn_codes k (advance r)
  end.

(** ** What is written to the file *)

(** The text a batch of codes adds to the file: every code followed by
    a line feed, in the order of the batch. *)
Definition code_lines (codes : list text) : text :=
  concat (map (fun code => code ++ [LF]) codes).

(** The content of the file at [path], empty when there is none. *)
Definition content_of (w : world) (path : string) : text :=
  default [] (files w !! path).

(** ** Concrete inputs *)

Definition no_files : world := {| files := ∅; write_log := [] |}.

Definition one_file (path : string) (content : text) : world :=
  {| files := {[ path := content ]}; write_log := [] |}.

Definition const_source (v : Z) : rand := {| raw := fun _ => v; pos := O |}.

Definition counting_source : rand := {| raw := Z.of_nat; pos := O |}.

Definition OUT_FILE_DEFAULT : string := "qr_codes.txt".

(** The file of the specification's example: a well-formed code, a
    line that is no code, and a code cut short. *)
Definition sample_content : text :=
  str_of "GT-ABCD-1234" ++ [LF] ++ str_of "bad-line" ++ [LF]
  ++ str_of "GT-ABCD-12" ++ [LF].

(** ** The command line *)

(** The namespace [parse_args] returns. *)
Record namespace := Namespace {
  args_count : Z;
  args_out : string
}.

(** The two [add_argument] calls of [main]. What argparse reads from
    the command line is given as the values of the options it has
    found there; an option that is left out takes its default. *)
Definition parse_args (given_count : option Z) (given_out : option string)
  : namespace :=
  {| args_count := default 500 given_count;
     args_out := default OUT_FILE_DEFAULT given_out |}.

(** [str(n)] for an [int]. *)
Definition int_str (n : Z) : text :=
  str_of (NilZero.string_of_int (Z.to_int n)).

(** [main]: besides the world and the random source it leaves, the
    model gives the text printed on the standard output. *)
Definition main (U : unicode_tables) (fuel : nat) (given_count : option Z)
    (given_out : option string) (r : rand) (w : world)
  : outcome (text * world * rand) :=
  let args := parse_args given_count given_out in
  '(created, w', r') ← generate U fuel (args_count args) (args_out args) r w;
  Ret (str_of "Appended " ++ int_str created ++ str_of " GT codes to "
       ++ str_of (args_out args) ++ [LF], w', r').

(** ** Auxiliary notions *)

(** What a run of the loop hands on: [new_codes] and the source. *)
Definition loop_result (o : outcome (gset text * list text * rand))
  : outcome (list text * rand) :=
  match o with
  | Ret (_, new_codes, r') => Ret (new_codes, r')
  | Raise e => Raise e
  | OutOfFuel => OutOfFuel
  end.

(** The codes of a list in the order of their first occurrence, those
    of [seen] left out. *)
Fixpoint first_seen (seen : gset text) (codes : list text) : list text :=
  match codes with
  | [] => []
  | c :: rest =>
      if bool_decide (c ∈ seen) then first_seen seen rest
      else c :: first_seen ({[ c ]} ∪ seen) rest
  end.

(** The test of [load_existing] on a line. *)
Definition kept (U : unicode_tables) (line s : text) : Prop :=
  s = str_upper U (str_strip U line)
  /\ startswith (str_of "GT-") s = true
  /\ length s = 11%nat.

(** * Properties of the generator *)

Section Encoding.

Lemma low5_range (v : Z) : 0 <= Z.land v 31 < 32.
Proof.
  change 31 with (Z.ones 5). rewrite Z.land_ones by lia.
  apply Z.mod_pos_bound. lia.
Qed.

Lemma low5_mod (v : Z) : Z.land v 31 = v mod 32.
Proof. change 31 with (Z.ones 5). now rewrite Z.land_ones by lia. Qed.

Lemma shift5_div (v : Z) : Z.shiftr v 5 = v / 32.
Proof. now rewrite Z.shiftr_div_pow2 by lia. Qed.

Lemma crockford_loop_digits (k : nat) (v : Z) (chars : text) :
  crockford_loop k v chars = chars ++ map crockford_at (low_digits k v).
Proof.
  revert v chars. induction k as [|k IH]; intros v chars; simpl.
  - now rewrite app_nil_r.
  - rewrite IH, <- app_assoc. reflexivity.
Qed.

Lemma length_low_digits (k : nat) (v : Z) : length (low_digits k v) = k.
Proof. revert v. induction k; intros; simpl; auto. Qed.

Lemma low_digits_range (k : nat) (v : Z) :
  Forall (fun d => 0 <= d < 32) (low_digits k v).
Proof.
  revert v. induction k as [|k IH]; intros v; simpl; constructor.
  - apply low5_range.
  - apply IH.
Qed.

Lemma low_digits_snoc (k : nat) (v : Z) :
  low_digits (S k) v = low_digits k v ++ [(v / 32 ^ Z.of_nat k) mod 32].
Proof.
  revert v. induction k as [|k IH]; intros v.
  - simpl. now rewrite low5_mod, Z.div_1_r.
  - change (low_digits (S (S k)) v)
      with (Z.land v 31 :: low_digits (S k) (Z.shiftr v 5)).
    rewrite IH. simpl. f_equal. f_equal. f_equal.
    rewrite shift5_div, Z.div_div by lia. f_equal. f_equal.
    rewrite Nat2Z.inj_succ, Z.pow_succ_r by lia. reflexivity.
Qed.

(** Reversing the extraction order gives the digits of the
    specification. *)
Lemma rev_low_digits (k : nat) (v : Z) :
  rev (low_digits k v) = base32_digits k v.
Proof.
  unfold base32_digits. induction k as [|k IH]; [reflexivity|].
  rewrite low_digits_snoc, rev_app_distr, IH. simpl.
  f_equal.
  - f_equal. f_equal. f_equal. lia.
  - rewrite <- seq_shift, map_map. apply map_ext_in.
    intros i Hi. apply in_seq in Hi. do 3 f_equal. lia.
Qed.

Lemma base32_value_snoc (ds : list Z) (d : Z) :
  base32_value (ds ++ [d]) = base32_value ds * 32 + d.
Proof. unfold base32_value. now rewrite foldl_app. Qed.

Lemma base32_value_digits (k : nat) (v : Z) :
  base32_value (base32_digits k v) = v mod 32 ^ Z.of_nat k.
Proof.
  rewrite <- rev_low_digits. revert v.
  induction k as [|k IH]; intros v.
  - simpl. now rewrite Z.mod_1_r.
  - simpl low_digits. simpl rev. rewrite base32_value_snoc, IH.
    rewrite low5_mod, shift5_div, Nat2Z.inj_succ, Z.pow_succ_r by lia.
    rewrite Z.rem_mul_r by lia. lia.
Qed.

Lemma crockford_at_alphabet (i : Z) :
  0 <= i < 32 -> crockford_at i ∈ CROCKFORD32.
Proof.
  intros Hi. unfold crockford_at. apply list_elem_of_In, nth_In.
  change (length CROCKFORD32) with 32%nat. lia.
Qed.

Lemma random_crockford_eq (n : Z) (r : rand) :
  0 <= n ->
  random_crockford n r
  = Ret (base32_repr (Z.to_nat n) (raw r (pos r) mod 2 ^ (n * 5)), advance r).
Proof.
  intros Hn. unfold random_crockford, randbits.
  destruct (Z.ltb_spec (n * 5) 0) as [?|_]; [lia|].
  cbn. rewrite crockford_loop_digits. simpl.
  unfold base32_repr. now rewrite <- rev_low_digits, map_rev.
Qed.

Lemma base32_repr_length (k : nat) (v : Z) : length (base32_repr k v) = k.
Proof.
  unfold base32_repr. rewrite length_map, <- rev_low_digits, length_rev.
  apply length_low_digits.
Qed.

Lemma base32_repr_alphabet (k : nat) (v : Z) :
  Forall (fun c => c ∈ CROCKFORD32) (base32_repr k v).
Proof.
  unfold base32_repr. rewrite <- rev_low_digits.
  apply Forall_map, Forall_rev.
  eapply Forall_impl; [apply low_digits_range|].
  intros d Hd. now apply crockford_at_alphabet.
Qed.

End Encoding.

(** C5. For every [n >= 1] and every integer [v] of [[0, 2^(5n))] that
    [secrets.randbits] delivers, [random_crockford n] returns the
    base-32 representation of [v] on [n] digits, most significant digit
    first, written with the alphabet as digit symbols: the digits denote
    [v], the string has exactly [n] characters and each of them belongs
    to the 32-character alphabet. *)
Theorem random_crockford_base32 (n v : Z) (r r' : rand) :
  1 <= n ->
  0 <= v < 2 ^ (5 * n) ->
  randbits (n * 5) r = Ret (v, r') ->
  random_crockford n r = Ret (base32_repr (Z.to_nat n) v, r')
  /\ base32_value (base32_digits (Z.to_nat n) v) = v
  /\ Z.of_nat (length (base32_repr (Z.to_nat n) v)) = n
  /\ Forall (fun c => c ∈ CROCKFORD32) (base32_repr (Z.to_nat n) v).
Proof.
  intros Hn Hv Hdraw. split; [|split; [|split]].
  - rewrite random_crockford_eq by lia.
    unfold randbits in Hdraw.
    destruct (Z.ltb_spec (n * 5) 0) as [?|_]; [lia|].
    now inversion Hdraw.
  - rewrite base32_value_digits, Z2Nat.id by lia.
    replace (32 ^ n) with (2 ^ (5 * n))
      by (rewrite Z.pow_mul_r by lia; reflexivity).
    now apply Z.mod_small.
  - rewrite base32_repr_length. lia.
  - apply base32_repr_alphabet.
Qed.

Lemma random_crockford_base32_witness :
  let r := {| raw := fun _ => 1375; pos := 0 |} in
  random_crockford 3 r = Ret (base32_repr 3 1375, advance r)
  /\ base32_value (base32_digits 3 1375) = 1375
  /\ Z.of_nat (length (base32_repr 3 1375)) = 3
  /\ Forall (fun c => c ∈ CROCKFORD32) (base32_repr 3 1375).
Proof.
  intros r.
  apply (random_crockford_base32 3 1375 r (advance r));
    [lia | vm_compute; split; congruence | reflexivity].
Defined.

Example random_crockford_1375 :
  base32_repr 3 1375 = str_of "1AZ".
Proof. reflexivity. Qed.

Section Format.

Lemma format_gt_cons (a b c d : N) (rest : text) :
  format_gt (a :: b :: c :: d :: rest)
  = str_of "GT-" ++ [a; b; c; d] ++ str_of "-" ++ rest.
Proof. reflexivity. Qed.

Lemma length8_inv (s : text) :
  length s = 8%nat ->
  exists a b c d e f g h, s = [a; b; c; d; e; f; g; h].
Proof.
  intros H.
  do 8 (destruct s as [|? s]; [discriminate H|]).
  destruct s; [|discriminate H]. eauto 10.
Qed.

End Format.

(** C3, as the code has it. For every string of exactly 8 symbols,
    [format_gt] returns the string of the shape [GT-XXXX-XXXX]: the
    literal prefix [GT-], the first four symbols, a hyphen and the last
    four symbols. That string has 12 characters. *)
Theorem format_gt_shape (code8 : text) :
  length code8 = 8%nat ->
  exists a b c d e f g h,
    code8 = [a; b; c; d; e; f; g; h]
    /\ format_gt code8
       = [71; 84; 45; a; b; c; d; 45; e; f; g; h]%N
    /\ length (format_gt code8) = 12%nat.
Proof.
  intros H. destruct (length8_inv code8 H)
    as (a & b & c & d & e & f & g & h & ->).
  exists a, b, c, d, e, f, g, h. repeat split.
Qed.

Lemma format_gt_shape_witness :
  exists a b c d e f g h,
    str_of "0123ABCD" = [a; b; c; d; e; f; g; h]
    /\ format_gt (str_of "0123ABCD")
       = [71; 84; 45; a; b; c; d; 45; e; f; g; h]%N
    /\ length (format_gt (str_of "0123ABCD")) = 12%nat.
Proof. apply (format_gt_shape (str_of "0123ABCD")). reflexivity. Defined.

(** C3, as the specification words it, fails: the formatted string of
    eight zeros has 12 characters, not 11. *)
Lemma format_gt_not_11 :
  length (str_of "00000000") = 8%nat
  /\ format_gt (str_of "00000000") = str_of "GT-0000-0000"
  /\ length (format_gt (str_of "00000000")) <> 11%nat.
Proof. repeat split. discriminate. Qed.

(** C6. [format_gt] is injective on strings of exactly 8 symbols:
    distinct inputs have distinct formatted outputs. *)
Theorem format_gt_injective (x y : text) :
  length x = 8%nat -> length y = 8%nat ->
  x <> y -> format_gt x <> format_gt y.
Proof.
  intros Hx Hy Hne Heq. apply Hne.
  destruct (length8_inv x Hx) as (a & b & c & d & e & f & g & h & ->).
  destruct (length8_inv y Hy) as (a' & b' & c' & d' & e' & f' & g' & h' & ->).
  rewrite !format_gt_cons in Heq. simpl in Heq. congruence.
Qed.

Lemma format_gt_injective_witness :
  format_gt (str_of "0123ABCD") <> format_gt (str_of "0123ABCE").
Proof.
  apply (format_gt_injective (str_of "0123ABCD") (str_of "0123ABCE"));
    [reflexivity | reflexivity | discriminate].
Defined.

(** * Properties of the file operations *)

Section Files.

Context (U : unicode_tables).

Lemma load_existing_absent (w : world) (path : string) :
  files w !! path = None -> load_existing U w path = Ret ∅.
Proof.
  intros H. unfold load_existing, path_exists.
  rewrite bool_decide_eq_false_2; [reflexivity|].
  rewrite H. apply is_Some_None.
Qed.

Lemma load_existing_present (w : world) (path : string) (content : text) :
  files w !! path = Some content ->
  load_existing U w path = Ret (foldl (load_line U) ∅ (file_lines content)).
Proof.
  intros H. unfold load_existing, path_exists, read_text.
  rewrite bool_decide_eq_true_2 by (rewrite H; eauto).
  rewrite H. reflexivity.
Qed.

(** Reading never fails on the files of a [world]. *)
Lemma load_existing_returns (w : world) (path : string) :
  exists existing, load_existing U w path = Ret existing.
Proof.
  destruct (files w !! path) as [content|] eqn:H.
  - exists (foldl (load_line U) ∅ (file_lines content)).
    apply load_existing_present, H.
  - exists ∅. apply load_existing_absent, H.
Qed.

Lemma open_append_content (w : world) (path : string) :
  files (open_append w path) !! path = Some (content_of w path).
Proof.
  unfold open_append, content_of.
  destruct (files w !! path) as [c|] eqn:H; simpl.
  - now rewrite H.
  - now rewrite lookup_insert_eq.
Qed.

Lemma open_append_other (w : world) (path p : string) :
  p <> path -> files (open_append w path) !! p = files w !! p.
Proof.
  intros Hne. unfold open_append.
  destruct (files w !! path); simpl; [reflexivity|].
  now rewrite lookup_insert_ne.
Qed.

Lemma open_append_log (w : world) (path : string) :
  write_log (open_append w path) = write_log w.
Proof. unfold open_append. now destruct (files w !! path). Qed.

Lemma write_codes_content (w : world) (path : string) (codes : list text) :
  files (foldl (fun w' code => file_write w' path (code ++ [LF])) w codes)
    !! path
  = match codes with
    | [] => files w !! path
    | _ => Some (content_of w path ++ code_lines codes)
    end.
Proof.
  revert w. induction codes as [|c codes IH]; intros w; [reflexivity|].
  simpl foldl. rewrite IH. unfold code_lines. simpl.
  destruct codes as [|c' codes].
  - simpl. rewrite lookup_insert_eq, app_nil_r. reflexivity.
  - unfold content_of at 1. simpl. rewrite lookup_insert_eq. simpl.
    now rewrite <- !app_assoc.
Qed.

Lemma write_codes_other (w : world) (path p : string) (codes : list text) :
  p <> path ->
  files (foldl (fun w' code => file_write w' path (code ++ [LF])) w codes) !! p
  = files w !! p.
Proof.
  intros Hne. revert w. induction codes as [|c codes IH]; intros w; simpl.
  - reflexivity.
  - rewrite IH. simpl. now rewrite lookup_insert_ne.
Qed.

Lemma write_codes_log (w : world) (path : string) (codes : list text) :
  write_log (foldl (fun w' code => file_write w' path (code ++ [LF])) w codes)
  = write_log w ++ map (fun code => (path, code ++ [LF])) codes.
Proof.
  revert w. induction codes as [|c codes IH]; intros w; simpl.
  - now rewrite app_nil_r.
  - rewrite IH. simpl. now rewrite <- app_assoc.
Qed.

Lemma append_codes_content (w : world) (path : string) (codes : list text) :
  files (append_codes w path codes) !! path
  = Some (content_of w path ++ code_lines codes).
Proof.
  unfold append_codes. rewrite write_codes_content.
  destruct codes.
  - rewrite open_append_content. unfold code_lines. simpl.
    now rewrite app_nil_r.
  - unfold content_of at 1. now rewrite open_append_content.
Qed.

Lemma append_codes_other (w : world) (path p : string) (codes : list text) :
  p <> path -> files (append_codes w path codes) !! p = files w !! p.
Proof.
  intros Hne. unfold append_codes.
  rewrite (write_codes_other _ path p codes Hne). now apply open_append_other.
Qed.

Lemma append_codes_log (w : world) (path : string) (codes : list text) :
  write_log (append_codes w path codes)
  = write_log w ++ map (fun code => (path, code ++ [LF])) codes.
Proof.
  unfold append_codes. now rewrite write_codes_log, open_append_log.
Qed.

Lemma code_lines_app (b1 b2 : list text) :
  code_lines (b1 ++ b2) = code_lines b1 ++ code_lines b2.
Proof. unfold code_lines. now rewrite map_app, concat_app. Qed.

End Files.

(** * Properties of the codes *)

Section Codes.

Lemma CROCKFORD32_length : length CROCKFORD32 = 32%nat.
Proof. reflexivity. Qed.

Lemma CROCKFORD32_NoDup : NoDup CROCKFORD32.
Proof. apply (bool_decide_unpack _). vm_compute. exact I. Qed.

(** Digits and upper-case letters only, and none of I, L, O, U. *)
Lemma CROCKFORD32_class :
  forallb is_upper_alnum CROCKFORD32 = true
  /\ forallb (fun c => negb (is_crockford c)) (str_of "ILOU") = true.
Proof. split; vm_compute; reflexivity. Qed.

Lemma is_crockford_upper_alnum (c : N) :
  is_crockford c = true -> is_upper_alnum c = true.
Proof.
  unfold is_crockford. intros H. apply bool_decide_eq_true_1 in H.
  apply list_elem_of_In in H.
  destruct CROCKFORD32_class as [Hall _].
  rewrite forallb_forall in Hall. now apply Hall.
Qed.

(** The alphabet is exactly the digits and the upper-case letters
    other than I, L, O and U. *)
Lemma is_crockford_spec (c : N) :
  is_crockford c
  = is_upper_alnum c && negb (bool_decide (c ∈ str_of "ILOU")).
Proof.
  destruct (N.lt_ge_cases c 91) as [Hlt|Hge].
  - assert (Hall : forallb
             (fun n => Bool.eqb (is_crockford (N.of_nat n))
                         (is_upper_alnum (N.of_nat n)
                          && negb (bool_decide (N.of_nat n ∈ str_of "ILOU"))))
             (seq 0 91) = true) by (vm_compute; reflexivity).
    rewrite forallb_forall in Hall.
    specialize (Hall (N.to_nat c)). rewrite N2Nat.id in Hall.
    apply Bool.eqb_prop, Hall, in_seq. lia.
  - assert (Hc : is_crockford c = false).
    { apply bool_decide_eq_false_2. intros Hin.
      assert (Hmax : Forall (fun x => (x < 91)%N) CROCKFORD32)
        by (apply (bool_decide_unpack _); vm_compute; exact I).
      rewrite Forall_forall in Hmax. apply Hmax in Hin. lia. }
    assert (Ha : is_upper_alnum c = false).
    { unfold is_upper_alnum.
      destruct (N.leb_spec c 57); [lia|]. destruct (N.leb_spec c 90); [lia|].
      now rewrite !andb_false_r. }
    now rewrite Hc, Ha.
Qed.

Lemma crockford_at_inj (i j : Z) :
  0 <= i < 32 -> 0 <= j < 32 -> crockford_at i = crockford_at j -> i = j.
Proof.
  intros Hi Hj H. unfold crockford_at in H.
  pose proof CROCKFORD32_NoDup as Hnd. apply NoDup_ListNoDup in Hnd.
  rewrite NoDup_nth in Hnd.
  apply Hnd in H; rewrite ?CROCKFORD32_length; lia.
Qed.

Lemma base32_digits_range (k : nat) (v : Z) :
  Forall (fun d => 0 <= d < 32) (base32_digits k v).
Proof. rewrite <- rev_low_digits. apply Forall_rev, low_digits_range. Qed.

Lemma map_crockford_at_inj (ds ds' : list Z) :
  Forall (fun d => 0 <= d < 32) ds -> Forall (fun d => 0 <= d < 32) ds' ->
  map crockford_at ds = map crockford_at ds' -> ds = ds'.
Proof.
  intros H. revert ds'. induction H as [|d ds Hd _ IH]; intros ds' H' Heq.
  - destruct ds'; [reflexivity|discriminate].
  - destruct H' as [|d' ds' Hd' H']; [discriminate|].
    simpl in Heq. injection Heq as Hhd Htl.
    f_equal; [now apply crockford_at_inj | now apply IH].
Qed.

Lemma base32_repr_inj (v v' : Z) :
  0 <= v < 2 ^ 40 -> 0 <= v' < 2 ^ 40 ->
  base32_repr 8 v = base32_repr 8 v' -> v = v'.
Proof.
  intros Hv Hv' H. unfold base32_repr in H.
  apply map_crockford_at_inj in H; try apply base32_digits_range.
  apply (f_equal base32_value) in H.
  rewrite !base32_value_digits in H.
  change (32 ^ Z.of_nat 8) with (2 ^ 40) in H.
  now rewrite !Z.mod_small in H.
Qed.

Lemma format_gt_inj (x y : text) :
  length x = 8%nat -> length y = 8%nat -> format_gt x = format_gt y -> x = y.
Proof.
  intros Hx Hy Heq.
  destruct (length8_inv x Hx) as (a & b & c & d & e & f & g & h & ->).
  destruct (length8_inv y Hy) as (a' & b' & c' & d' & e' & f' & g' & h' & ->).
  rewrite !format_gt_cons in Heq. simpl in Heq. congruence.
Qed.

(** The code of a 40-bit integer. *)
Lemma next_code_inj (r r' : rand) :
  next_code r = next_code r' ->
  raw r (pos r) mod 2 ^ 40 = raw r' (pos r') mod 2 ^ 40.
Proof.
  unfold next_code. intros H.
  apply format_gt_inj in H; try apply base32_repr_length.
  apply base32_repr_inj in H; [assumption| |]; apply Z.mod_pos_bound; lia.
Qed.

Lemma gt_match_format (cls : N -> bool) (s : text) :
  length s = 8%nat -> forallb cls s = true -> gt_match cls (format_gt s) = true.
Proof.
  intros Hlen Hcls.
  destruct (length8_inv s Hlen) as (a & b & c & d & e & f & g & h & ->).
  rewrite format_gt_cons. exact Hcls.
Qed.

(** Every code the loop draws matches [GT-XXXX-XXXX] over the alphabet,
    hence over [[A-Z0-9]]. *)
Lemma next_code_match (r : rand) :
  gt_match is_crockford (next_code r) = true
  /\ gt_match is_upper_alnum (next_code r) = true.
Proof.
  unfold next_code.
  set (v := raw r (pos r) mod 2 ^ 40).
  assert (Hall : forallb is_crockford (base32_repr 8 v) = true).
  { apply forallb_forall. intros c Hc. unfold is_crockford.
    apply bool_decide_eq_true_2.
    pose proof (base32_repr_alphabet 8 v) as HF.
    rewrite Forall_forall in HF. apply HF. now apply list_elem_of_In. }
  split; apply gt_match_format; try apply base32_repr_length; [assumption|].
  apply forallb_forall. intros c Hc. apply is_crockford_upper_alnum.
  rewrite forallb_forall in Hall. now apply Hall.
Qed.

Lemma next_code_length (r : rand) : length (next_code r) = 12%nat.
Proof.
  unfold next_code.
  destruct (length8_inv _ (base32_repr_length 8 (raw r (pos r) mod 2 ^ 40)))
    as (a & b & c & d & e & f & g & h & ->).
  reflexivity.
Qed.

Lemma drawn_codes_draws (n : nat) (r : rand) :
  drawn_codes n r
  = map (fun v => format_gt (base32_repr 8 v)) (draws n r).
Proof.
  revert r. induction n as [|n IH]; intros r; simpl; [reflexivity|].
  now rewrite IH.
Qed.

End Codes.

(** * The duplicate-avoidance loop *)

Section Loop.

Lemma random_crockford_8 (r : rand) :
  random_crockford 8 r
  = Ret (base32_repr 8 (raw r (pos r) mod 2 ^ 40), advance r).
Proof. now rewrite random_crockford_eq by lia. Qed.

(** The loop is left as soon as [new_codes] holds [count] entries. *)
Lemma generate_loop_done (fuel : nat) (count : Z) (r : rand)
    (existing : gset text) (new_codes : list text) :
  count <= Z.of_nat (length new_codes) ->
  generate_loop fuel count r existing new_codes = Ret (existing, new_codes, r).
Proof.
  intros H. destruct fuel; simpl;
    destruct (Z.ltb_spec (Z.of_nat (length new_codes)) count); try lia;
    reflexivity.
Qed.

Lemma generate_loop_spent (count : Z) (r : rand)
    (existing : gset text) (new_codes : list text) :
  Z.of_nat (length new_codes) < count ->
  generate_loop 0 count r existing new_codes = OutOfFuel.
Proof.
  intros H. simpl.
  destruct (Z.ltb_spec (Z.of_nat (length new_codes)) count); [reflexivity|lia].
Qed.

(** One iteration. *)
Lemma generate_loop_step (fuel : nat) (count : Z) (r : rand)
    (existing : gset text) (new_codes : list text) :
  Z.of_nat (length new_codes) < count ->
  generate_loop (S fuel) count r existing new_codes
  = if bool_decide (next_code r ∈ existing)
    then generate_loop fuel count (advance r) existing new_codes
    else generate_loop fuel count (advance r) ({[ next_code r ]} ∪ existing)
           (new_codes ++ [next_code r]).
Proof.
  intros H. cbn [generate_loop].
  destruct (Z.ltb_spec (Z.of_nat (length new_codes)) count); [|lia].
  rewrite random_crockford_8. reflexivity.
Qed.

(** The loop that is left at once has added nothing. *)
Lemma nothing_added (count : Z) (existing : gset text) (new_codes : list text) :
  count <= Z.of_nat (length new_codes) ->
  exists added : list text,
    new_codes = new_codes ++ added
    /\ NoDup added
    /\ (forall c, c ∈ added -> c ∉ existing)
    /\ existing = list_to_set added ∪ existing
    /\ Forall (fun c => gt_match is_crockford c = true
                        /\ gt_match is_upper_alnum c = true) added
    /\ (Z.of_nat (length new_codes) <= count ->
        Z.of_nat (length new_codes) = count)
    /\ (count <= Z.of_nat (length new_codes) -> added = []).
Proof.
  intros Hge. exists []. rewrite app_nil_r.
  split; [reflexivity|]. split; [constructor|].
  split; [intros c Hc; inversion Hc|].
  split; [simpl; now rewrite (left_id_L ∅ (∪))|].
  split; [constructor|]. split; [lia|reflexivity].
Qed.

(** What a run of the loop that returns has done: it has added codes
    to [new_codes], all drawn from the source, none of them in the set
    it started from, no two of them equal, and it has put them into
    the set. *)
Lemma generate_loop_inv (fuel : nat) :
  forall (count : Z) (r : rand) (existing : gset text) (new_codes : list text)
         (existing' : gset text) (new_codes' : list text) (r' : rand),
  generate_loop fuel count r existing new_codes
  = Ret (existing', new_codes', r') ->
  exists added : list text,
    new_codes' = new_codes ++ added
    /\ NoDup added
    /\ (forall c, c ∈ added -> c ∉ existing)
    /\ existing' = list_to_set added ∪ existing
    /\ Forall (fun c => gt_match is_crockford c = true
                        /\ gt_match is_upper_alnum c = true) added
    /\ (Z.of_nat (length new_codes) <= count ->
        Z.of_nat (length new_codes') = count)
    /\ (count <= Z.of_nat (length new_codes) -> added = []).
Proof.
  induction fuel as [|fuel IH]; intros count r existing new_codes
    existing' new_codes' r' Hrun;
    destruct (Z.lt_ge_cases (Z.of_nat (length new_codes)) count) as [Hlt|Hge].
  - rewrite generate_loop_spent in Hrun by assumption. discriminate.
  - rewrite generate_loop_done in Hrun by assumption.
    injection Hrun as <- <- <-. now apply nothing_added.
  - rewrite generate_loop_step in Hrun by assumption.
    destruct (bool_decide (next_code r ∈ existing)) eqn:Hin.
    + apply IH in Hrun as (added & -> & Hnd & Hfresh & -> & Hshape & Hlen & _).
      exists added. repeat split; auto. intros; lia.
    + apply bool_decide_eq_false_1 in Hin.
      apply IH in Hrun as (added & -> & Hnd & Hfresh & -> & Hshape & Hlen & _).
      exists (next_code r :: added). repeat split.
      * now rewrite <- app_assoc.
      * apply NoDup_cons. split; [|assumption].
        intros Hc. apply Hfresh in Hc. set_solver.
      * intros c Hc. apply elem_of_cons in Hc as [->|Hc]; [assumption|].
        apply Hfresh in Hc. set_solver.
      * set_solver.
      * constructor; [apply next_code_match|assumption].
      * intros _. apply Hlen. rewrite length_app. simpl. lia.
      * intros; lia.
  - rewrite generate_loop_done in Hrun by assumption.
    injection Hrun as <- <- <-. now apply nothing_added.
Qed.

(** The codes added within [fuel] iterations are among the next
    [fuel] codes of the source. *)
Lemma generate_loop_drawn (fuel : nat) :
  forall (count : Z) (r : rand) (existing : gset text) (new_codes : list text)
         (existing' : gset text) (new_codes' : list text) (r' : rand),
  generate_loop fuel count r existing new_codes
  = Ret (existing', new_codes', r') ->
  exists added : list text,
    new_codes' = new_codes ++ added
    /\ (forall c, c ∈ added -> c ∈ drawn_codes fuel r).
Proof.
  induction fuel as [|fuel IH]; intros count r existing new_codes
    existing' new_codes' r' Hrun;
    destruct (Z.lt_ge_cases (Z.of_nat (length new_codes)) count) as [Hlt|Hge];
    try (rewrite generate_loop_done in Hrun by assumption;
         injection Hrun as <- <- <-; exists []; rewrite app_nil_r;
         split; [reflexivity|intros c Hc; inversion Hc]).
  - rewrite generate_loop_spent in Hrun by assumption. discriminate.
  - rewrite generate_loop_step in Hrun by assumption.
    destruct (bool_decide (next_code r ∈ existing)).
    + apply IH in Hrun as (added & -> & Hsub). exists added.
      split; [reflexivity|]. intros c Hc. simpl. right. now apply Hsub.
    + apply IH in Hrun as (added & -> & Hsub). exists (next_code r :: added).
      split; [now rewrite <- app_assoc|].
      intros c Hc. simpl. apply elem_of_cons in Hc as [->|Hc];
        [left|right; now apply Hsub].
Qed.

Lemma difference_seen (c : text) (S existing : gset text) :
  c ∈ existing -> ({[ c ]} ∪ S) ∖ existing = S ∖ existing.
Proof. set_solver. Qed.

Lemma size_difference_fresh (c : text) (S existing : gset text) :
  c ∉ existing ->
  (size (({[ c ]} ∪ S) ∖ existing) <= 1 + size (S ∖ ({[ c ]} ∪ existing)))%nat.
Proof.
  intros Hc. rewrite <- (size_singleton (C:=gset text) c).
  rewrite <- size_union by set_solver.
  apply subseteq_size. intros x Hx.
  destruct (decide (x = c)); set_solver.
Qed.

(** The loop returns once the source has delivered enough codes that
    are new. *)
Lemma generate_loop_returns (fuel : nat) :
  forall (count : Z) (r : rand) (existing : gset text) (new_codes : list text),
  count - Z.of_nat (length new_codes)
  <= Z.of_nat (size (list_to_set (drawn_codes fuel r) ∖ existing : gset text)) ->
  exists res, generate_loop fuel count r existing new_codes = Ret res.
Proof.
  induction fuel as [|fuel IH]; intros count r existing new_codes Hsz;
    destruct (Z.lt_ge_cases (Z.of_nat (length new_codes)) count) as [Hlt|Hge];
    try (eexists; apply generate_loop_done; assumption).
  - simpl in Hsz. rewrite difference_disjoint_L, size_empty in Hsz by set_solver.
    lia.
  - rewrite generate_loop_step by assumption.
    simpl drawn_codes in Hsz. rewrite list_to_set_cons in Hsz.
    destruct (bool_decide (next_code r ∈ existing)) eqn:Hin.
    + apply bool_decide_eq_true_1 in Hin. apply IH.
      now rewrite difference_seen in Hsz.
    + apply bool_decide_eq_false_1 in Hin. apply IH.
      rewrite length_app. simpl.
      pose proof (size_difference_fresh (next_code r)
                    (list_to_set (drawn_codes fuel (advance r))) existing Hin).
      lia.
Qed.

End Loop.

(** * Runs of [generate] *)

Section Runs.

Context (U : unicode_tables).

(** [generate] is its loop, run on the codes loaded from the file and
    followed by the append. *)
Lemma generate_unfold (fuel : nat) (count : Z) (path : string) (r : rand)
    (w : world) (existing : gset text) :
  load_existing U w path = Ret existing ->
  generate U fuel count path r w
  = match generate_loop fuel count r existing [] with
    | Ret (_, new_codes, r') =>
        Ret (Z.of_nat (length new_codes), append_codes w path new_codes, r')
    | Raise e => Raise e
    | OutOfFuel => OutOfFuel
    end.
Proof.
  intros H. unfold generate. rewrite H. simpl.
  destruct (generate_loop fuel count r existing []) as [[[? ?] ?]| |];
    reflexivity.
Qed.

Lemma generate_codes_unfold (fuel : nat) (count : Z) (path : string)
    (r : rand) (w : world) (existing : gset text) :
  load_existing U w path = Ret existing ->
  generate_codes U fuel count path r w
  = match generate_loop fuel count r existing [] with
    | Ret (_, new_codes, _) => Ret new_codes
    | Raise e => Raise e
    | OutOfFuel => OutOfFuel
    end.
Proof.
  intros H. unfold generate_codes. rewrite H. simpl.
  destruct (generate_loop fuel count r existing []) as [[[? ?] ?]| |];
    reflexivity.
Qed.

Lemma load_existing_fresh (w : world) (path : string) :
  files w !! path = None \/ files w !! path = Some [] ->
  load_existing U w path = Ret ∅.
Proof.
  intros [H|H].
  - now apply load_existing_absent.
  - now rewrite (load_existing_present U w path [] H).
Qed.

(** With nothing to generate, the run only opens the file. *)
Lemma generate_nothing (fuel : nat) (count : Z) (path : string) (r : rand)
    (w : world) :
  count <= 0 ->
  generate U fuel count path r w = Ret (0, open_append w path, r)
  /\ generate_codes U fuel count path r w = Ret [].
Proof.
  intros Hc. destruct (load_existing_returns U w path) as [existing Hload].
  rewrite (generate_unfold _ _ _ _ _ _ Hload).
  rewrite (generate_codes_unfold _ _ _ _ _ _ Hload).
  rewrite generate_loop_done by (simpl; lia). split; reflexivity.
Qed.

(** A source that repeats a code of the set makes no progress. *)
Lemma generate_loop_stuck (v : Z) (count : Z) (existing : gset text)
    (new_codes : list text) :
  Z.of_nat (length new_codes) < count ->
  next_code (const_source v) ∈ existing ->
  forall (fuel k : nat),
    generate_loop fuel count {| raw := fun _ => v; pos := k |}
      existing new_codes = OutOfFuel.
Proof.
  intros Hlt Hin fuel. induction fuel as [|fuel IH]; intros k.
  - now apply generate_loop_spent.
  - rewrite generate_loop_step by assumption.
    change (next_code {| raw := fun _ => v; pos := k |})
      with (next_code (const_source v)).
    rewrite bool_decide_eq_true_2 by assumption. apply IH.
Qed.

End Runs.

Section Counting.

Context `{Countable A, Countable B}.

(** An injective map keeps the number of distinct elements. *)
Lemma size_list_to_set_map (f : A -> B) (l : list A) :
  (forall x y, x ∈ l -> y ∈ l -> f x = f y -> x = y) ->
  size (list_to_set (map f l) : gset B) = size (list_to_set l : gset A).
Proof.
  induction l as [|x l IH]; intros Hinj; [reflexivity|].
  simpl map. rewrite !list_to_set_cons.
  assert (IH' : size (list_to_set (map f l) : gset B)
                = size (list_to_set l : gset A)).
  { apply IH. intros a b Ha Hb. apply Hinj; now apply list_elem_of_further. }
  destruct (decide (x ∈ l)) as [Hx|Hx].
  - assert (Hfx : f x ∈ map f l) by (apply list_elem_of_fmap; eauto).
    rewrite !subseteq_union_1_L by set_solver. exact IH'.
  - assert (Hfx : f x ∉ map f l).
    { intros Hc. apply list_elem_of_fmap in Hc as (y & Heq & Hy).
      apply Hinj in Heq; [now subst| apply list_elem_of_here
                         | now apply list_elem_of_further]. }
    rewrite !size_union by set_solver.
    rewrite !size_singleton. now rewrite IH'.
Qed.

End Counting.

Section Distinct.

Lemma draws_range (n : nat) (r : rand) :
  Forall (fun v => 0 <= v < 2 ^ 40) (draws n r).
Proof.
  revert r. induction n as [|n IH]; intros r; simpl; constructor.
  - apply Z.mod_pos_bound. lia.
  - apply IH.
Qed.

(** As many distinct codes as distinct 40-bit integers. *)
Lemma size_drawn_codes (n : nat) (r : rand) :
  size (list_to_set (drawn_codes n r) : gset text)
  = size (list_to_set (draws n r) : gset Z).
Proof.
  rewrite drawn_codes_draws. apply size_list_to_set_map.
  intros x y Hx Hy Heq.
  pose proof (draws_range n r) as HF. rewrite Forall_forall in HF.
  apply format_gt_inj in Heq; try apply base32_repr_length.
  apply base32_repr_inj in Heq; [assumption| |]; apply HF; assumption.
Qed.

End Distinct.

(** * The claims about the file *)

(** C8. When no file exists at [path], [load_existing] returns the
    empty set; it does not raise. *)
Theorem load_existing_missing_file (U : unicode_tables) (w : world)
    (path : string) :
  files w !! path = None ->
  path_exists w path = false /\ load_existing U w path = Ret ∅.
Proof.
  intros H. split; [|now apply load_existing_absent].
  unfold path_exists. apply bool_decide_eq_false_2.
  rewrite H. apply is_Some_None.
Qed.

Lemma load_existing_missing_file_witness :
  path_exists no_files OUT_FILE_DEFAULT = false
  /\ load_existing plain_tables no_files OUT_FILE_DEFAULT = Ret ∅.
Proof.
  apply (load_existing_missing_file plain_tables no_files OUT_FILE_DEFAULT).
  reflexivity.
Defined.

(** C2, on the code. The file of the example holds the lines
    [GT-ABCD-1234], [bad-line] and [GT-ABCD-12]; [load_existing] keeps
    none of them, because the well-formed code has 12 characters and
    the test of [load_existing] asks for 11. *)
Theorem load_existing_sample (U : unicode_tables) :
  file_lines sample_content
  = [str_of "GT-ABCD-1234" ++ [LF]; str_of "bad-line" ++ [LF];
     str_of "GT-ABCD-12" ++ [LF]]
  /\ length (str_of "GT-ABCD-1234") = 12%nat
  /\ load_existing U (one_file OUT_FILE_DEFAULT sample_content)
       OUT_FILE_DEFAULT
     = Ret ∅.
Proof.
  split; [reflexivity|]. split; [reflexivity|].
  rewrite (load_existing_present U _ _ sample_content) by reflexivity.
  reflexivity.
Qed.

(** X16. Two successive appends to the file at [path] leave it with its
    prior content, unchanged, followed by the codes of the first batch
    and then the codes of the second batch, every code followed by a
    line feed and in the order of its batch. Every other file is left
    as it was, and the only writes are one per code, in that order. *)
Theorem append_codes_twice (w : world) (path : string) (b1 b2 : list text) :
  let w1 := append_codes w path b1 in
  let w2 := append_codes w1 path b2 in
  files w1 !! path = Some (content_of w path ++ code_lines b1)
  /\ files w2 !! path
     = Some (content_of w path ++ code_lines b1 ++ code_lines b2)
  /\ (forall p, p <> path -> files w2 !! p = files w !! p)
  /\ write_log w2
     = write_log w ++ map (fun code => (path, code ++ [LF])) (b1 ++ b2).
Proof.
  intros w1 w2. subst w1 w2. repeat split.
  - apply append_codes_content.
  - rewrite append_codes_content. unfold content_of at 1.
    rewrite append_codes_content. simpl. now rewrite <- app_assoc.
  - intros p Hp. now rewrite !append_codes_other.
  - now rewrite !append_codes_log, map_app, app_assoc.
Qed.

(** C9. For every [count <= 0], [generate] leaves its loop at once:
    [new_codes] is empty, the value returned is 0, no [write] is
    performed, and the run is the run for a count of zero. *)
Theorem generate_nonpositive (U : unicode_tables) (fuel : nat) (count : Z)
    (path : string) (r : rand) (w : world) :
  count <= 0 ->
  exists w',
    generate U fuel count path r w = Ret (0, w', r)
    /\ generate_codes U fuel count path r w = Ret []
    /\ write_log w' = write_log w
    /\ generate U fuel count path r w = generate U fuel 0 path r w.
Proof.
  intros Hc. exists (open_append w path).
  destruct (generate_nothing U fuel count path r w Hc) as [Hg Hcodes].
  destruct (generate_nothing U fuel 0 path r w (Z.le_refl 0)) as [Hg0 _].
  repeat split; try assumption.
  - apply open_append_log.
  - now rewrite Hg, Hg0.
Qed.

Lemma generate_nonpositive_witness :
  exists w',
    generate plain_tables 0 (-3) OUT_FILE_DEFAULT (const_source 0) no_files
    = Ret (0, w', const_source 0)
    /\ generate_codes plain_tables 0 (-3) OUT_FILE_DEFAULT (const_source 0)
         no_files
       = Ret []
    /\ write_log w' = write_log no_files
    /\ generate plain_tables 0 (-3) OUT_FILE_DEFAULT (const_source 0) no_files
       = generate plain_tables 0 0 OUT_FILE_DEFAULT (const_source 0) no_files.
Proof.
  apply (generate_nonpositive plain_tables 0 (-3) OUT_FILE_DEFAULT
           (const_source 0) no_files).
  lia.
Defined.

(** C10. For every [count <= 0], opening the file for appending is the
    only effect of [generate]: a file that did not exist is created
    empty, a file that existed keeps its content, and no other file
    changes. *)
Theorem generate_nonpositive_file (U : unicode_tables) (fuel : nat)
    (count : Z) (path : string) (r : rand) (w : world) :
  count <= 0 ->
  exists w',
    generate U fuel count path r w = Ret (0, w', r)
    /\ (files w !! path = None -> files w' !! path = Some [])
    /\ (forall content,
          files w !! path = Some content -> files w' !! path = Some content)
    /\ (forall p, p <> path -> files w' !! p = files w !! p).
Proof.
  intros Hc. exists (open_append w path).
  destruct (generate_nothing U fuel count path r w Hc) as [Hg _].
  split; [assumption|]. repeat split.
  - intros H. rewrite open_append_content. unfold content_of. now rewrite H.
  - intros content H. rewrite open_append_content. unfold content_of.
    now rewrite H.
  - intros p Hp. now apply open_append_other.
Qed.

Lemma generate_nonpositive_file_witness :
  exists w',
    generate plain_tables 0 0 OUT_FILE_DEFAULT (const_source 0) no_files
    = Ret (0, w', const_source 0)
    /\ (files no_files !! OUT_FILE_DEFAULT = None ->
        files w' !! OUT_FILE_DEFAULT = Some [])
    /\ (forall content,
          files no_files !! OUT_FILE_DEFAULT = Some content ->
          files w' !! OUT_FILE_DEFAULT = Some content)
    /\ (forall p,
          p <> OUT_FILE_DEFAULT -> files w' !! p = files no_files !! p).
Proof.
  apply (generate_nonpositive_file plain_tables 0 0 OUT_FILE_DEFAULT
           (const_source 0) no_files).
  lia.
Defined.

(** * The claims about a batch *)

(** C4, as the code has it. For every [count >= 1], every path whose
    file is empty or absent and every outcome of the random source
    whose first [fuel] draws hold at least [count] distinct 40-bit
    integers, [generate] returns [count] within [fuel] iterations, and
    its [new_codes] are exactly [count] codes, pairwise distinct, each
    matching [GT-XXXX-XXXX] over the 32-symbol alphabet and so over
    [[A-Z0-9]]; these are the codes appended to the file. *)
Theorem generate_fresh_file (U : unicode_tables) (fuel : nat) (count : Z)
    (path : string) (r : rand) (w : world) :
  1 <= count ->
  files w !! path = None \/ files w !! path = Some [] ->
  count <= Z.of_nat (size (list_to_set (draws fuel r) : gset Z)) ->
  exists new_codes r',
    generate U fuel count path r w
    = Ret (count, append_codes w path new_codes, r')
    /\ generate_codes U fuel count path r w = Ret new_codes
    /\ Z.of_nat (length new_codes) = count
    /\ NoDup new_codes
    /\ Forall (fun c => gt_match is_crockford c = true
                        /\ gt_match is_upper_alnum c = true) new_codes.
Proof.
  intros Hcount Hfile Hdistinct.
  pose proof (load_existing_fresh U w path Hfile) as Hload.
  destruct (generate_loop_returns fuel count r ∅ []) as [[[ex nc] r'] Hrun].
  { rewrite difference_empty_L, size_drawn_codes. simpl. lia. }
  destruct (generate_loop_inv _ _ _ _ _ _ _ _ Hrun)
    as (added & Hnc & Hnd & _ & _ & Hshape & Hlen & _).
  simpl in Hnc. subst nc.
  exists added, r'.
  rewrite (generate_unfold _ _ _ _ _ _ _ Hload).
  rewrite (generate_codes_unfold _ _ _ _ _ _ _ Hload).
  rewrite Hrun. rewrite Hlen by (simpl; lia).
  repeat split; assumption.
Qed.

Lemma generate_fresh_file_witness :
  exists new_codes r',
    generate plain_tables 2 2 OUT_FILE_DEFAULT counting_source no_files
    = Ret (2, append_codes no_files OUT_FILE_DEFAULT new_codes, r')
    /\ generate_codes plain_tables 2 2 OUT_FILE_DEFAULT counting_source
         no_files
       = Ret new_codes
    /\ Z.of_nat (length new_codes) = 2
    /\ NoDup new_codes
    /\ Forall (fun c => gt_match is_crockford c = true
                        /\ gt_match is_upper_alnum c = true) new_codes.
Proof.
  apply (generate_fresh_file plain_tables 2 2 OUT_FILE_DEFAULT
           counting_source no_files).
  - lia.
  - left. reflexivity.
  - vm_compute. discriminate.
Defined.

Example generate_counting_source :
  generate_codes plain_tables 2 2 OUT_FILE_DEFAULT counting_source no_files
  = Ret [str_of "GT-0000-0000"; str_of "GT-0000-0001"].
Proof. reflexivity. Qed.

(** C4, as the specification words it, fails: on the outcome of the
    random source that delivers the same integer for ever, a run for
    two codes on an absent file never returns, whatever the fuel. *)
Lemma generate_constant_source_loops :
  files no_files !! OUT_FILE_DEFAULT = None
  /\ ~ exists U fuel res,
         generate U fuel 2 OUT_FILE_DEFAULT (const_source 0) no_files
         = Ret res.
Proof.
  split; [reflexivity|]. intros (U & fuel & res & Hrun).
  rewrite (generate_unfold U _ _ _ _ _ ∅) in Hrun
    by (apply load_existing_absent; reflexivity).
  destruct fuel as [|fuel].
  - rewrite generate_loop_spent in Hrun by (simpl; lia). discriminate.
  - rewrite generate_loop_step in Hrun by (simpl; lia).
    rewrite bool_decide_eq_false_2 in Hrun by set_solver.
    unfold advance, const_source in Hrun.
    simpl app in Hrun. simpl raw in Hrun.
    rewrite (generate_loop_stuck 0) in Hrun; [discriminate|simpl; lia|].
    set_solver.
Qed.

(** C1, on the code. The file is absent and the random source delivers
    the integer 0 twice. A first run for one code appends
    [GT-0000-0000]. The second run reads the file back, keeps nothing
    of it (the line has 12 characters), draws 0 in its turn and
    returns [GT-0000-0000] again; the file ends up with the code
    twice. *)
Theorem second_run_repeats_first (U : unicode_tables) :
  let code := str_of "GT-0000-0000" in
  let r := const_source 0 in
  let w1 := append_codes no_files OUT_FILE_DEFAULT [code] in
  let w2 := append_codes w1 OUT_FILE_DEFAULT [code] in
  generate_codes U 1 1 OUT_FILE_DEFAULT r no_files = Ret [code]
  /\ generate U 1 1 OUT_FILE_DEFAULT r no_files = Ret (1, w1, advance r)
  /\ files w1 !! OUT_FILE_DEFAULT = Some (code ++ [LF])
  /\ load_existing U w1 OUT_FILE_DEFAULT = Ret ∅
  /\ generate_codes U 1 1 OUT_FILE_DEFAULT (advance r) w1 = Ret [code]
  /\ generate U 1 1 OUT_FILE_DEFAULT (advance r) w1
     = Ret (1, w2, advance (advance r))
  /\ files w2 !! OUT_FILE_DEFAULT = Some (code ++ [LF] ++ code ++ [LF]).
Proof.
  intros code r w1 w2.
  assert (Hload0 : load_existing U no_files OUT_FILE_DEFAULT = Ret ∅)
    by (apply load_existing_absent; reflexivity).
  assert (Hload1 : load_existing U w1 OUT_FILE_DEFAULT = Ret ∅)
    by (rewrite (load_existing_present U w1 OUT_FILE_DEFAULT (code ++ [LF]));
        reflexivity).
  rewrite (generate_codes_unfold U _ _ _ _ _ _ Hload0).
  rewrite (generate_unfold U _ _ _ _ _ _ Hload0).
  rewrite (generate_codes_unfold U _ _ _ _ _ _ Hload1).
  rewrite (generate_unfold U _ _ _ _ _ _ Hload1).
  repeat split; try assumption; reflexivity.
Qed.

(** * What [load_existing] keeps *)

Section Loaded.

Context (U : unicode_tables).

Lemma load_line_inv (existing : gset text) (line s : text) :
  s ∈ load_line U existing line ->
  s ∈ existing \/ (startswith (str_of "GT-") s = true /\ length s = 11%nat).
Proof.
  unfold load_line.
  set (t := str_upper U (str_strip U line)).
  destruct (startswith (str_of "GT-") t) eqn:Hpre; simpl; [|now left].
  destruct (Z.eqb_spec (Z.of_nat (length t)) 11) as [Hlen|_]; [|now left].
  intros Hs. apply elem_of_union in Hs as [Hs|Hs]; [|now left].
  apply elem_of_singleton in Hs. subst s. right. split; [assumption|lia].
Qed.

Lemma load_lines_inv (lines : list text) :
  forall (existing : gset text) (s : text),
  s ∈ foldl (load_line U) existing lines ->
  s ∈ existing \/ (startswith (str_of "GT-") s = true /\ length s = 11%nat).
Proof.
  induction lines as [|line lines IH]; intros existing s Hs; [now left|].
  simpl in Hs. apply IH in Hs as [Hs|Hs]; [|now right].
  now apply load_line_inv in Hs.
Qed.

Lemma loaded_shape (w : world) (path : string) (existing : gset text) (s : text) :
  load_existing U w path = Ret existing -> s ∈ existing ->
  startswith (str_of "GT-") s = true /\ length s = 11%nat.
Proof.
  intros Hload Hs. destruct (files w !! path) as [content|] eqn:Hf.
  - rewrite (load_existing_present U w path content Hf) in Hload.
    injection Hload as <-. apply load_lines_inv in Hs as [Hs|Hs]; [|assumption].
    now apply not_elem_of_empty in Hs.
  - rewrite (load_existing_absent U w path Hf) in Hload.
    injection Hload as <-. now apply not_elem_of_empty in Hs.
Qed.

(** The codes of the loop have 12 characters, the loaded ones 11: the
    membership test of the loop never finds a drawn code among the
    codes read from the file. *)
Lemma loaded_never_drawn (w : world) (path : string) (existing : gset text)
    (r : rand) :
  load_existing U w path = Ret existing -> next_code r ∉ existing.
Proof.
  intros Hload Hin. apply (loaded_shape _ _ _ _ Hload) in Hin as [_ Hlen].
  rewrite next_code_length in Hlen. discriminate.
Qed.

End Loaded.

(** * The lines of the file after an append *)

Section Lines.

Lemma file_lines_nil_inv (s : text) : file_lines s = [] -> s = [].
Proof.
  destruct s as [|c r]; [reflexivity|]. simpl.
  destruct (c =? LF)%N; [discriminate|].
  destruct (c =? CR)%N.
  - destruct r as [|c2 r']; [discriminate|].
    destruct (c2 =? LF)%N; discriminate.
  - destruct (file_lines r); discriminate.
Qed.

Lemma file_lines_LF (r : text) : file_lines (LF :: r) = [LF] :: file_lines r.
Proof. reflexivity. Qed.

Lemma file_lines_CRLF (r : text) :
  file_lines (CR :: LF :: r) = [LF] :: file_lines r.
Proof. reflexivity. Qed.

Lemma file_lines_CR (r : text) :
  head r <> Some LF -> file_lines (CR :: r) = [LF] :: file_lines r.
Proof.
  intros Hhd. destruct r as [|c2 r']; [reflexivity|].
  cbn [file_lines]. change (CR =? LF)%N with false.
  change (CR =? CR)%N with true. cbv iota.
  destruct (N.eqb_spec c2 LF) as [->|_]; [now contradict Hhd|reflexivity].
Qed.

Lemma file_lines_char (c : N) (r : text) :
  c <> LF -> c <> CR ->
  file_lines (c :: r)
  = match file_lines r with
    | [] => [[c]]
    | l :: ls => (c :: l) :: ls
    end.
Proof.
  intros Hlf Hcr. cbn [file_lines].
  destruct (N.eqb_spec c LF); [contradiction|].
  destruct (N.eqb_spec c CR); [contradiction|]. reflexivity.
Qed.

(** A line feed closes the last line: what follows it is read as if
    it stood at the start of a file. *)
Lemma file_lines_terminated_bounded (n : nat) :
  forall (p rest : text), (length p <= n)%nat ->
  file_lines (p ++ LF :: rest) = file_lines (p ++ [LF]) ++ file_lines rest.
Proof.
  induction n as [|n IH]; intros p rest Hlen.
  - destruct p; [reflexivity|simpl in Hlen; lia].
  - destruct p as [|c r]; [reflexivity|]. simpl in Hlen.
    rewrite <- !app_comm_cons.
    destruct (N.eq_dec c LF) as [->|Hlf].
    { rewrite !file_lines_LF, IH by lia. reflexivity. }
    destruct (N.eq_dec c CR) as [->|Hcr].
    { destruct r as [|c2 r']; [reflexivity|]. simpl in Hlen.
      rewrite <- !app_comm_cons.
      destruct (N.eq_dec c2 LF) as [->|Hlf2].
      - rewrite !file_lines_CRLF, IH by lia. reflexivity.
      - rewrite !file_lines_CR by (simpl; congruence).
        rewrite !app_comm_cons, IH by (simpl; lia). reflexivity. }
    rewrite !file_lines_char by assumption. rewrite IH by lia.
    destruct (file_lines (r ++ [LF])) as [|l ls] eqn:Hl; [|reflexivity].
    apply file_lines_nil_inv in Hl. now destruct r.
Qed.

Lemma file_lines_terminated (p rest : text) :
  file_lines (p ++ LF :: rest) = file_lines (p ++ [LF]) ++ file_lines rest.
Proof. now apply (file_lines_terminated_bounded (length p)). Qed.

(** A code without line terminators, followed by a line feed, is one
    line. *)
Lemma file_lines_one (code : text) :
  LF ∉ code -> CR ∉ code -> file_lines (code ++ [LF]) = [code ++ [LF]].
Proof.
  induction code as [|c code IH]; intros Hlf Hcr; [reflexivity|].
  apply not_elem_of_cons in Hlf as [Hc Hlf].
  apply not_elem_of_cons in Hcr as [Hc' Hcr].
  rewrite <- app_comm_cons, file_lines_char by congruence.
  rewrite IH by assumption. reflexivity.
Qed.

Lemma file_lines_code_lines (codes : list text) :
  Forall (fun code => (LF ∉ code) /\ (CR ∉ code)) codes ->
  file_lines (code_lines codes) = map (fun code => code ++ [LF]) codes.
Proof.
  induction 1 as [|code codes [Hlf Hcr] _ IH]; [reflexivity|].
  unfold code_lines in *. simpl. rewrite <- app_assoc. simpl.
  rewrite file_lines_terminated, IH, file_lines_one by assumption.
  reflexivity.
Qed.

(** Read back, a file that was empty or ended with a line feed shows
    the appended codes as lines of their own, after the lines it had. *)
Lemma file_lines_appended (prior : text) (codes : list text) :
  prior = [] \/ (exists p, prior = p ++ [LF]) ->
  Forall (fun code => (LF ∉ code) /\ (CR ∉ code)) codes ->
  file_lines (prior ++ code_lines codes)
  = file_lines prior ++ map (fun code => code ++ [LF]) codes.
Proof.
  intros [->|[p ->]] Hcodes.
  - now apply file_lines_code_lines.
  - rewrite <- app_assoc. simpl.
    now rewrite file_lines_terminated, file_lines_code_lines.
Qed.

End Lines.

Section Shape.

Lemma gt_match_inv (cls : N -> bool) (s : text) :
  gt_match cls s = true ->
  exists a b c d e f i j,
    s = [71; 84; 45; a; b; c; d; 45; e; f; i; j]%N
    /\ forallb cls [a; b; c; d; e; f; i; j] = true.
Proof.
  intros H.
  do 12 (destruct s as [|? s]; [discriminate H|]).
  destruct s; [|discriminate H]. simpl in H.
  repeat (apply andb_prop in H as [H ?]).
  repeat match goal with
         | E : (_ =? _)%N = true |- _ => apply N.eqb_eq in E; subst
         end.
  do 8 eexists. split; [reflexivity|]. simpl. eassumption.
Qed.

Lemma upper_alnum_no_terminator (c : N) :
  is_upper_alnum c = true -> c <> LF /\ c <> CR.
Proof.
  unfold is_upper_alnum, LF, CR. intros H.
  apply orb_prop in H as [H|H]; apply andb_prop in H as [H1 H2];
    apply N.leb_le in H1, H2; lia.
Qed.

(** A string that matches the pattern of the file format holds no
    line terminator. *)
Lemma gt_match_no_terminator (s : text) :
  gt_match is_upper_alnum s = true -> (LF ∉ s) /\ (CR ∉ s).
Proof.
  intros H.
  destruct (gt_match_inv _ _ H) as (a & b & c & d & e & f & i & j & -> & Hcls).
  simpl in Hcls. repeat (apply andb_prop in Hcls as [? Hcls]).
  repeat match goal with
         | E : is_upper_alnum _ = true |- _ =>
             apply upper_alnum_no_terminator in E as [? ?]
         end.
  split; intros Hin;
    repeat (apply elem_of_cons in Hin as [Hin|Hin];
            [first [contradiction | discriminate Hin | congruence]|]);
    inversion Hin.
Qed.

End Shape.

(** * Further properties of the code *)

(** X1. The set [load_existing] returns holds only strings of exactly 11
    characters that start with [GT-]; the codes [generate] draws have
    12, so none of them is ever a member of that set. *)
Theorem loaded_codes_have_11_characters (U : unicode_tables) (w : world)
    (path : string) (existing : gset text) :
  load_existing U w path = Ret existing ->
  (forall s, s ∈ existing ->
     startswith (str_of "GT-") s = true /\ length s = 11%nat)
  /\ (forall r, length (next_code r) = 12%nat /\ next_code r ∉ existing).
Proof.
  intros Hload. split.
  - intros s Hs. now apply (loaded_shape U w path existing).
  - intros r. split; [apply next_code_length|].
    now apply (loaded_never_drawn U w path).
Qed.

Lemma loaded_codes_have_11_characters_witness :
  let existing : gset text := {[ str_of "GT-ABCD-123" ]} in
  (forall s, s ∈ existing ->
     startswith (str_of "GT-") s = true /\ length s = 11%nat)
  /\ (forall r, length (next_code r) = 12%nat /\ next_code r ∉ existing).
Proof.
  apply (loaded_codes_have_11_characters plain_tables
           (one_file OUT_FILE_DEFAULT (str_of "  gt-abcd-123 " ++ [LF]))
           OUT_FILE_DEFAULT).
  rewrite (load_existing_present plain_tables _ _
             (str_of "  gt-abcd-123 " ++ [LF])) by reflexivity.
  reflexivity.
Defined.

(** X2. Whatever the file holds, a run of [generate] that returns has
    accepted [max 0 count] codes, pairwise distinct and each matching
    [GT-XXXX-XXXX] over the alphabet; it returns their number and has
    appended them, in order and each followed by a line feed, to the
    prior content of the file, leaving every other file as it was. *)
Theorem generate_returned_batch (U : unicode_tables) (fuel : nat) (count : Z)
    (path : string) (r r' : rand) (w w' : world) (n : Z) :
  generate U fuel count path r w = Ret (n, w', r') ->
  exists new_codes,
    generate_codes U fuel count path r w = Ret new_codes
    /\ n = Z.of_nat (length new_codes)
    /\ n = Z.max 0 count
    /\ NoDup new_codes
    /\ Forall (fun c => gt_match is_crockford c = true
                        /\ gt_match is_upper_alnum c = true) new_codes
    /\ files w' !! path = Some (content_of w path ++ code_lines new_codes)
    /\ (forall p, p <> path -> files w' !! p = files w !! p).
Proof.
  intros Hrun.
  destruct (load_existing_returns U w path) as [existing Hload].
  rewrite (generate_unfold U _ _ _ _ _ _ Hload) in Hrun.
  rewrite (generate_codes_unfold U _ _ _ _ _ _ Hload).
  destruct (generate_loop fuel count r existing [])
    as [[[ex nc] r1]| |] eqn:Hloop; try discriminate.
  injection Hrun as <- <- <-.
  destruct (generate_loop_inv _ _ _ _ _ _ _ _ Hloop)
    as (added & Hnc & Hnd & _ & _ & Hshape & Hlen & Hnone).
  simpl in Hnc, Hlen, Hnone. subst nc.
  exists added. repeat split; try assumption.
  - destruct (Z.le_gt_cases 0 count) as [Hc|Hc].
    + rewrite Hlen by assumption. lia.
    + rewrite Hnone by lia. simpl. lia.
  - apply append_codes_content.
  - intros p Hp. now apply append_codes_other.
Qed.

Lemma generate_returned_batch_witness :
  exists new_codes,
    generate_codes plain_tables 2 2 OUT_FILE_DEFAULT counting_source no_files
    = Ret new_codes
    /\ 2 = Z.of_nat (length new_codes)
    /\ 2 = Z.max 0 2
    /\ NoDup new_codes
    /\ Forall (fun c => gt_match is_crockford c = true
                        /\ gt_match is_upper_alnum c = true) new_codes
    /\ files
         (append_codes no_files OUT_FILE_DEFAULT
            [str_of "GT-0000-0000"; str_of "GT-0000-0001"]) !! OUT_FILE_DEFAULT
       = Some (content_of no_files OUT_FILE_DEFAULT ++ code_lines new_codes)
    /\ (forall p, p <> OUT_FILE_DEFAULT ->
          files
            (append_codes no_files OUT_FILE_DEFAULT
               [str_of "GT-0000-0000"; str_of "GT-0000-0001"]) !! p
          = files no_files !! p).
Proof.
  apply (generate_returned_batch plain_tables 2 2 OUT_FILE_DEFAULT counting_source
           {| raw := Z.of_nat; pos := 2 |} no_files
           (append_codes no_files OUT_FILE_DEFAULT
              [str_of "GT-0000-0000"; str_of "GT-0000-0001"]) 2).
  reflexivity.
Defined.

(** X3. A run of [generate] returns within [fuel] iterations only if the
    first [fuel] draws of the source hold at least [count] distinct
    40-bit integers. *)
Theorem generate_needs_distinct_draws (U : unicode_tables) (fuel : nat)
    (count : Z) (path : string) (r r' : rand) (w w' : world) (n : Z) :
  generate U fuel count path r w = Ret (n, w', r') ->
  count <= Z.of_nat (size (list_to_set (draws fuel r) : gset Z)).
Proof.
  intros Hrun.
  destruct (load_existing_returns U w path) as [existing Hload].
  rewrite (generate_unfold U _ _ _ _ _ _ Hload) in Hrun.
  destruct (generate_loop fuel count r existing [])
    as [[[ex nc] r1]| |] eqn:Hloop; try discriminate.
  destruct (generate_loop_inv _ _ _ _ _ _ _ _ Hloop)
    as (added & Hnc & Hnd & _ & _ & _ & Hlen & _).
  destruct (generate_loop_drawn _ _ _ _ _ _ _ _ Hloop)
    as (added' & Hnc' & Hsub).
  simpl in Hnc, Hnc', Hlen. subst nc. subst added'.
  destruct (Z.le_gt_cases 0 count) as [Hc|Hc]; [|lia].
  rewrite <- Hlen by assumption.
  rewrite <- size_drawn_codes.
  rewrite <- (size_list_to_set (C:=gset text) added) by assumption.
  apply inj_le, subseteq_size. intros c Hc'.
  apply elem_of_list_to_set. apply Hsub. now apply elem_of_list_to_set in Hc'.
Qed.

Lemma generate_needs_distinct_draws_witness :
  2 <= Z.of_nat (size (list_to_set (draws 2 counting_source) : gset Z)).
Proof.
  apply (generate_needs_distinct_draws plain_tables 2 2 OUT_FILE_DEFAULT
           counting_source {| raw := Z.of_nat; pos := 2 |} no_files
           (append_codes no_files OUT_FILE_DEFAULT
              [str_of "GT-0000-0000"; str_of "GT-0000-0001"]) 2).
  reflexivity.
Defined.

(** X4. Read back line by line, a file that was empty or ended with a
    line feed shows, after the lines it had, every appended code as a
    line of its own, in the order of the batch. *)
Theorem appended_codes_read_back (w : world) (path : string)
    (codes : list text) :
  content_of w path = [] \/ (exists p, content_of w path = p ++ [LF]) ->
  Forall (fun c => gt_match is_upper_alnum c = true) codes ->
  exists content,
    files (append_codes w path codes) !! path = Some content
    /\ file_lines content
       = file_lines (content_of w path) ++ map (fun c => c ++ [LF]) codes.
Proof.
  intros Hprior Hcodes. eexists. split; [apply append_codes_content|].
  apply file_lines_appended; [assumption|].
  eapply Forall_impl; [exact Hcodes|].
  intros c Hc. now apply gt_match_no_terminator.
Qed.

Lemma appended_codes_read_back_witness :
  exists content,
    files (append_codes no_files OUT_FILE_DEFAULT [str_of "GT-0000-0000"])
      !! OUT_FILE_DEFAULT
    = Some content
    /\ file_lines content
       = file_lines (content_of no_files OUT_FILE_DEFAULT)
         ++ map (fun c => c ++ [LF]) [str_of "GT-0000-0000"].
Proof.
  apply (appended_codes_read_back no_files OUT_FILE_DEFAULT
           [str_of "GT-0000-0000"]).
  - left. reflexivity.
  - repeat constructor.
Defined.

(** C7, as the code has it. When the prior content of the file at
    [path] is empty or ends with a line feed, two successive appends of
    well-formed codes leave the file with its prior content, unchanged,
    followed by the codes of the first batch and then the codes of the
    second batch; read back line by line, the file shows the lines it
    had and then every appended code as a line of its own, in the
    order of its batch, the lines of the first batch before those of
    the second. Every other file is left as it was, and the only
    writes are one per code, in that order. *)
Theorem append_codes_twice_own_lines (w : world) (path : string)
    (b1 b2 : list text) :
  content_of w path = [] \/ (exists p, content_of w path = p ++ [LF]) ->
  Forall (fun c => gt_match is_upper_alnum c = true) (b1 ++ b2) ->
  let w2 := append_codes (append_codes w path b1) path b2 in
  exists content,
    files w2 !! path = Some content
    /\ content = content_of w path ++ code_lines b1 ++ code_lines b2
    /\ file_lines content
       = file_lines (content_of w path)
         ++ map (fun c => c ++ [LF]) b1 ++ map (fun c => c ++ [LF]) b2
    /\ (forall p, p <> path -> files w2 !! p = files w !! p)
    /\ write_log w2
       = write_log w ++ map (fun code => (path, code ++ [LF])) (b1 ++ b2).
Proof.
  intros Hprior Hcodes w2. subst w2.
  exists (content_of w path ++ code_lines b1 ++ code_lines b2).
  split; [|split; [reflexivity|split; [|split]]].
  - rewrite append_codes_content. unfold content_of at 1.
    rewrite append_codes_content. simpl. now rewrite <- app_assoc.
  - rewrite <- code_lines_app, <- map_app.
    apply file_lines_appended; [assumption|].
    eapply Forall_impl; [exact Hcodes|].
    intros c Hc. now apply gt_match_no_terminator.
  - intros p Hp. now rewrite !append_codes_other.
  - now rewrite !append_codes_log, map_app, app_assoc.
Qed.

Lemma append_codes_twice_own_lines_witness :
  let prior := str_of "GT-ABCD-123" ++ [LF] in
  let b1 := [str_of "GT-0000-0000"; str_of "GT-0000-0001"] in
  let b2 := [str_of "GT-0000-0002"] in
  let w := one_file OUT_FILE_DEFAULT prior in
  let w2 := append_codes (append_codes w OUT_FILE_DEFAULT b1)
              OUT_FILE_DEFAULT b2 in
  exists content,
    files w2 !! OUT_FILE_DEFAULT = Some content
    /\ content
       = content_of w OUT_FILE_DEFAULT ++ code_lines b1 ++ code_lines b2
    /\ file_lines content
       = file_lines (content_of w OUT_FILE_DEFAULT)
         ++ map (fun c => c ++ [LF]) b1 ++ map (fun c => c ++ [LF]) b2
    /\ (forall p, p <> OUT_FILE_DEFAULT -> files w2 !! p = files w !! p)
    /\ write_log w2
       = write_log w
         ++ map (fun code => (OUT_FILE_DEFAULT, code ++ [LF])) (b1 ++ b2).
Proof.
  intros prior b1 b2 w w2.
  apply (append_codes_twice_own_lines w OUT_FILE_DEFAULT b1 b2).
  - right. exists (str_of "GT-ABCD-123"). reflexivity.
  - repeat constructor.
Defined.

(** C7, as the specification words it, fails. The file holds [abc]
    with no line terminator; one code is appended, then another. The
    first code is read back joined to [abc], not on a line of its own:
    the lines of the file are not the lines it had followed by one
    line per code. *)
Lemma append_codes_joins_unterminated :
  let prior := str_of "abc" in
  let b1 := [str_of "GT-0000-0000"] in
  let b2 := [str_of "GT-0000-0001"] in
  let w := one_file OUT_FILE_DEFAULT prior in
  let w2 := append_codes (append_codes w OUT_FILE_DEFAULT b1)
              OUT_FILE_DEFAULT b2 in
  files w !! OUT_FILE_DEFAULT = Some prior
  /\ files w2 !! OUT_FILE_DEFAULT
     = Some (str_of "abcGT-0000-0000" ++ [LF]
             ++ str_of "GT-0000-0001" ++ [LF])
  /\ file_lines (content_of w2 OUT_FILE_DEFAULT)
     = [str_of "abcGT-0000-0000" ++ [LF]; str_of "GT-0000-0001" ++ [LF]]
  /\ (str_of "GT-0000-0000" ++ [LF]
      ∉ file_lines (content_of w2 OUT_FILE_DEFAULT))
  /\ file_lines (content_of w2 OUT_FILE_DEFAULT)
     <> file_lines prior
        ++ map (fun c => c ++ [LF]) b1 ++ map (fun c => c ++ [LF]) b2.
Proof.
  intros prior b1 b2 w w2.
  assert (Hlines : file_lines (content_of w2 OUT_FILE_DEFAULT)
                   = [str_of "abcGT-0000-0000" ++ [LF];
                      str_of "GT-0000-0001" ++ [LF]])
    by reflexivity.
  split; [reflexivity|]. split; [reflexivity|]. split; [exact Hlines|].
  rewrite Hlines. split.
  - intros Hin. apply elem_of_cons in Hin as [Hin|Hin]; [discriminate|].
    apply elem_of_cons in Hin as [Hin|Hin]; [discriminate|inversion Hin].
  - discriminate.
Qed.

(** * The generator on every length *)

Section AnyLength.

Lemma format_gt_length (s : text) :
  length (format_gt s) = (length s + 4)%nat.
Proof.
  unfold format_gt. rewrite !length_app, length_take, length_drop.
  change (length (str_of "GT-")) with 3%nat.
  change (length (str_of "-")) with 1%nat. lia.
Qed.

Lemma format_gt_inj_any (x y : text) : format_gt x = format_gt y -> x = y.
Proof.
  intros Heq.
  assert (Hlen : length x = length y).
  { apply (f_equal length) in Heq. rewrite !format_gt_length in Heq. lia. }
  unfold format_gt in Heq. apply app_inv_head in Heq.
  apply app_inj_1 in Heq as [Htake Hdrop];
    [|rewrite !length_take; lia].
  simpl in Hdrop. injection Hdrop as Hdrop.
  rewrite <- (take_drop 4 x), <- (take_drop 4 y). congruence.
Qed.

Lemma base32_repr_inj_any (k : nat) (v v' : Z) :
  base32_repr k v = base32_repr k v' ->
  v mod 32 ^ Z.of_nat k = v' mod 32 ^ Z.of_nat k.
Proof.
  unfold base32_repr. intros H.
  apply map_crockford_at_inj in H; try apply base32_digits_range.
  apply (f_equal base32_value) in H.
  now rewrite !base32_value_digits in H.
Qed.

Lemma pow32_pow2 (n : Z) : 0 <= n -> 32 ^ n = 2 ^ (n * 5).
Proof.
  intros Hn. rewrite Z.mul_comm, Z.pow_mul_r by lia. reflexivity.
Qed.

(** Every symbol of the alphabet is the symbol of a digit. *)
Lemma crockford_at_surj (c : N) :
  c ∈ CROCKFORD32 -> exists i, 0 <= i < 32 /\ crockford_at i = c.
Proof.
  intros Hc. apply list_elem_of_In in Hc.
  apply (In_nth _ _ 0%N) in Hc as (k & Hk & Hnth).
  rewrite CROCKFORD32_length in Hk.
  exists (Z.of_nat k). split; [lia|].
  unfold crockford_at. now rewrite Nat2Z.id.
Qed.

Lemma digits_of_symbols (s : text) :
  Forall (fun c => c ∈ CROCKFORD32) s ->
  exists ds, Forall (fun d => 0 <= d < 32) ds /\ map crockford_at ds = s.
Proof.
  induction 1 as [|c s Hc _ (ds & Hds & Hmap)].
  - exists []. split; [constructor|reflexivity].
  - destruct (crockford_at_surj c Hc) as (i & Hi & Hat).
    exists (i :: ds). split; [now constructor|]. simpl. congruence.
Qed.

Lemma base32_value_range (ds : list Z) :
  Forall (fun d => 0 <= d < 32) ds ->
  0 <= base32_value ds < 32 ^ Z.of_nat (length ds).
Proof.
  induction ds as [|d ds IH] using rev_ind; intros Hds.
  - change (0 <= 0 < 1). lia.
  - apply Forall_app in Hds as [Hds Hd]. rewrite Forall_singleton in Hd.
    specialize (IH Hds).
    rewrite base32_value_snoc, length_app, Nat2Z.inj_add.
    simpl length. rewrite Z.pow_add_r by lia.
    change (32 ^ Z.of_nat 1) with 32. nia.
Qed.

(** The digits of the number that a list of digits denotes. *)
Lemma low_digits_value (ds : list Z) :
  Forall (fun d => 0 <= d < 32) ds ->
  low_digits (length ds) (base32_value ds) = rev ds.
Proof.
  induction ds as [|d ds IH] using rev_ind; intros Hds; [reflexivity|].
  apply Forall_app in Hds as [Hds Hd]. rewrite Forall_singleton in Hd.
  rewrite base32_value_snoc, length_app, rev_app_distr. simpl length.
  rewrite Nat.add_1_r. simpl low_digits. simpl rev.
  rewrite low5_mod, shift5_div.
  replace ((base32_value ds * 32 + d) mod 32) with d
    by (rewrite Z.add_comm, Z.mod_add by lia; now rewrite Z.mod_small).
  replace ((base32_value ds * 32 + d) / 32) with (base32_value ds)
    by (rewrite Z.add_comm, Z.div_add by lia;
        rewrite Z.div_small by lia; lia).
  now rewrite IH.
Qed.

Lemma base32_repr_value (ds : list Z) :
  Forall (fun d => 0 <= d < 32) ds ->
  base32_repr (length ds) (base32_value ds) = map crockford_at ds.
Proof.
  intros Hds. unfold base32_repr.
  now rewrite <- rev_low_digits, low_digits_value, rev_involutive.
Qed.

End AnyLength.

(** X5. [format_gt] lengthens every string by four characters and is
    injective on all strings, whatever their length. *)
Theorem format_gt_injective_any_length (x y : text) :
  length (format_gt x) = (length x + 4)%nat
  /\ (format_gt x = format_gt y <-> x = y).
Proof.
  split; [apply format_gt_length|].
  split; [apply format_gt_inj_any|now intros ->].
Qed.

(** X6. Two calls of [random_crockford] for the same number of
    characters that return the same string have drawn the same
    5n-bit integer. *)
Theorem random_crockford_injective (n : Z) (r1 r2 r1' r2' : rand) (s : text) :
  random_crockford n r1 = Ret (s, r1') ->
  random_crockford n r2 = Ret (s, r2') ->
  0 <= n
  /\ raw r1 (pos r1) mod 2 ^ (n * 5) = raw r2 (pos r2) mod 2 ^ (n * 5).
Proof.
  intros H1 H2.
  assert (Hn : 0 <= n).
  { unfold random_crockford, randbits in H1.
    destruct (Z.ltb_spec (n * 5) 0); [discriminate|lia]. }
  split; [assumption|].
  rewrite random_crockford_eq in H1 by assumption.
  rewrite random_crockford_eq in H2 by assumption.
  injection H1 as H1 _. injection H2 as H2 _. rewrite <- H2 in H1.
  apply base32_repr_inj_any in H1.
  rewrite Z2Nat.id, pow32_pow2 in H1 by assumption.
  assert (Hpos : 0 < 2 ^ (n * 5)) by (apply Z.pow_pos_nonneg; lia).
  now rewrite !Z.mod_mod in H1 by lia.
Qed.

Lemma random_crockford_injective_witness :
  0 <= 3
  /\ raw (const_source 1375) (pos (const_source 1375)) mod 2 ^ (3 * 5)
     = raw (const_source (1375 + 2 ^ 15)) (pos (const_source (1375 + 2 ^ 15)))
       mod 2 ^ (3 * 5).
Proof.
  apply (random_crockford_injective 3 (const_source 1375)
           (const_source (1375 + 2 ^ 15)) (advance (const_source 1375))
           (advance (const_source (1375 + 2 ^ 15))) (str_of "1AZ"));
    reflexivity.
Defined.

(** X7. Every string of [n] symbols of the alphabet is returned by
    [random_crockford n]: it is what the call returns when the source
    delivers the integer, below [2^(5n)], that the string denotes in
    base 32. *)
Theorem random_crockford_surjective (n : Z) (s : text) :
  Z.of_nat (length s) = n ->
  Forall (fun c => c ∈ CROCKFORD32) s ->
  exists v,
    0 <= v < 2 ^ (n * 5)
    /\ forall r, raw r (pos r) = v ->
         random_crockford n r = Ret (s, advance r).
Proof.
  intros Hlen Hs. destruct (digits_of_symbols s Hs) as (ds & Hds & Hmap).
  assert (Hlen' : length ds = length s) by (now rewrite <- Hmap, length_map).
  exists (base32_value ds).
  pose proof (base32_value_range ds Hds) as Hrange.
  rewrite Hlen', Hlen, pow32_pow2 in Hrange by lia.
  split; [assumption|]. intros r Hr.
  rewrite random_crockford_eq, Hr, Z.mod_small by (assumption || lia).
  rewrite <- Hlen, Nat2Z.id, <- Hlen'. now rewrite base32_repr_value, Hmap.
Qed.

Lemma random_crockford_surjective_witness :
  exists v,
    0 <= v < 2 ^ (3 * 5)
    /\ forall r, raw r (pos r) = v ->
         random_crockford 3 r = Ret (str_of "1AZ", advance r).
Proof.
  apply (random_crockford_surjective 3 (str_of "1AZ")).
  - reflexivity.
  - apply (bool_decide_unpack _). vm_compute. exact I.
Defined.

(** * The batch and the file *)

Section Independence.

(** Two sets that hold the same drawn codes steer the loop alike. *)
Lemma generate_loop_agree (fuel : nat) :
  forall (count : Z) (r : rand) (ex1 ex2 : gset text) (new_codes : list text),
  (forall r0, next_code r0 ∈ ex1 <-> next_code r0 ∈ ex2) ->
  loop_result (generate_loop fuel count r ex1 new_codes)
  = loop_result (generate_loop fuel count r ex2 new_codes).
Proof.
  induction fuel as [|fuel IH]; intros count r ex1 ex2 new_codes Hagree;
    destruct (Z.lt_ge_cases (Z.of_nat (length new_codes)) count) as [Hlt|Hge];
    try (now rewrite !generate_loop_done by assumption).
  - now rewrite !generate_loop_spent by assumption.
  - rewrite !generate_loop_step by assumption.
    rewrite (bool_decide_ext _ _ (Hagree r)).
    destruct (bool_decide (next_code r ∈ ex2)); apply IH; [assumption|].
    intros r0. rewrite !elem_of_union, (Hagree r0). reflexivity.
Qed.

Lemma generate_codes_loop (U : unicode_tables) (fuel : nat) (count : Z)
    (path : string) (r : rand) (w : world) :
  generate_codes U fuel count path r w
  = match loop_result (generate_loop fuel count r ∅ []) with
    | Ret (new_codes, _) => Ret new_codes
    | Raise e => Raise e
    | OutOfFuel => OutOfFuel
    end.
Proof.
  destruct (load_existing_returns U w path) as [existing Hload].
  rewrite (generate_codes_unfold U _ _ _ _ _ _ Hload).
  rewrite <- (generate_loop_agree fuel count r existing ∅).
  - now destruct (generate_loop fuel count r existing [])
      as [[[? ?] ?]| |].
  - intros r0. split; intros Hin.
    + now apply (loaded_never_drawn U w path existing r0) in Hin.
    + now apply not_elem_of_empty in Hin.
Qed.

Lemma generate_loop_result (U : unicode_tables) (fuel : nat) (count : Z)
    (path : string) (r : rand) (w : world) :
  generate U fuel count path r w
  = match loop_result (generate_loop fuel count r ∅ []) with
    | Ret (new_codes, r') =>
        Ret (Z.of_nat (length new_codes), append_codes w path new_codes, r')
    | Raise e => Raise e
    | OutOfFuel => OutOfFuel
    end.
Proof.
  destruct (load_existing_returns U w path) as [existing Hload].
  rewrite (generate_unfold U _ _ _ _ _ _ Hload).
  rewrite <- (generate_loop_agree fuel count r existing ∅).
  - now destruct (generate_loop fuel count r existing [])
      as [[[? ?] ?]| |].
  - intros r0. split; intros Hin.
    + now apply (loaded_never_drawn U w path existing r0) in Hin.
    + now apply not_elem_of_empty in Hin.
Qed.

(** The loop adds the first occurrences of the codes it draws. *)
Lemma generate_loop_first_seen (fuel : nat) :
  forall (count : Z) (r : rand) (existing : gset text) (new_codes : list text)
         (existing' : gset text) (new_codes' : list text) (r' : rand),
  generate_loop fuel count r existing new_codes
  = Ret (existing', new_codes', r') ->
  new_codes'
  = new_codes
    ++ take (Z.to_nat count - length new_codes)
         (first_seen existing (drawn_codes fuel r)).
Proof.
  induction fuel as [|fuel IH]; intros count r existing new_codes
    existing' new_codes' r' Hrun;
    destruct (Z.lt_ge_cases (Z.of_nat (length new_codes)) count) as [Hlt|Hge];
    try (rewrite generate_loop_done in Hrun by assumption;
         injection Hrun as <- <- <-;
         replace (Z.to_nat count - length new_codes)%nat with 0%nat by lia;
         now rewrite take_0, app_nil_r).
  - rewrite generate_loop_spent in Hrun by assumption. discriminate.
  - rewrite generate_loop_step in Hrun by assumption. simpl drawn_codes.
    simpl first_seen.
    destruct (bool_decide (next_code r ∈ existing)).
    + now apply IH in Hrun.
    + apply IH in Hrun. rewrite Hrun, <- app_assoc, length_app. simpl.
      replace (Z.to_nat count - length new_codes)%nat
        with (S (Z.to_nat count - (length new_codes + 1)))%nat by lia.
      reflexivity.
Qed.

Lemma drawn_codes_next (n : nat) (r : rand) (c : text) :
  c ∈ drawn_codes n r -> exists r0, c = next_code r0.
Proof.
  revert r. induction n as [|n IH]; intros r Hc; simpl in Hc.
  - inversion Hc.
  - apply elem_of_cons in Hc as [->|Hc]; [now exists r|now apply IH in Hc].
Qed.

End Independence.

(** X8. The codes a run of [generate] accepts, the number it returns
    and the state it leaves the random source in depend on the count
    and on the draws only: not on the path, and not on what the file
    holds. *)
Theorem generate_ignores_file (U1 U2 : unicode_tables) (fuel : nat)
    (count : Z) (path1 path2 : string) (r : rand) (w1 w2 : world) :
  generate_codes U1 fuel count path1 r w1
  = generate_codes U2 fuel count path2 r w2
  /\ forall n w1' r',
       generate U1 fuel count path1 r w1 = Ret (n, w1', r') ->
       exists w2', generate U2 fuel count path2 r w2 = Ret (n, w2', r').
Proof.
  split; [now rewrite !generate_codes_loop|].
  intros n w1' r'. rewrite !generate_loop_result.
  destruct (loop_result (generate_loop fuel count r ∅ []))
    as [[nc r1]| |]; try discriminate.
  intros [= <- _ <-]. eauto.
Qed.

(** X9. Whatever the file holds, a run of [generate] returns within
    [fuel] iterations as soon as the first [fuel] draws of the source
    hold [count] distinct 40-bit integers; it then returns
    [max 0 count], the number of codes it has accepted and appended. *)
Theorem generate_returns_on_any_file (U : unicode_tables) (fuel : nat)
    (count : Z) (path : string) (r : rand) (w : world) :
  count <= Z.of_nat (size (list_to_set (draws fuel r) : gset Z)) ->
  exists new_codes r',
    generate U fuel count path r w
    = Ret (Z.max 0 count, append_codes w path new_codes, r')
    /\ generate_codes U fuel count path r w = Ret new_codes
    /\ Z.of_nat (length new_codes) = Z.max 0 count.
Proof.
  intros Hdistinct.
  destruct (generate_loop_returns fuel count r ∅ []) as [[[ex nc] r'] Hrun].
  { rewrite difference_empty_L, size_drawn_codes. simpl. lia. }
  destruct (generate_loop_inv _ _ _ _ _ _ _ _ Hrun)
    as (added & Hnc & _ & _ & _ & _ & Hlen & Hnone).
  simpl in Hnc, Hlen, Hnone. subst nc.
  assert (Hmax : Z.of_nat (length added) = Z.max 0 count).
  { destruct (Z.le_gt_cases 0 count) as [Hc|Hc].
    - rewrite Hlen by assumption. lia.
    - rewrite Hnone by lia. simpl. lia. }
  exists added, r'.
  rewrite generate_loop_result, generate_codes_loop, Hrun. simpl.
  now rewrite Hmax.
Qed.

Lemma generate_returns_on_any_file_witness :
  exists new_codes r',
    generate plain_tables 3 2 OUT_FILE_DEFAULT counting_source
      (one_file OUT_FILE_DEFAULT sample_content)
    = Ret (Z.max 0 2,
           append_codes (one_file OUT_FILE_DEFAULT sample_content)
             OUT_FILE_DEFAULT new_codes, r')
    /\ generate_codes plain_tables 3 2 OUT_FILE_DEFAULT counting_source
         (one_file OUT_FILE_DEFAULT sample_content)
       = Ret new_codes
    /\ Z.of_nat (length new_codes) = Z.max 0 2.
Proof.
  apply (generate_returns_on_any_file plain_tables 3 2 OUT_FILE_DEFAULT
           counting_source (one_file OUT_FILE_DEFAULT sample_content)).
  vm_compute. discriminate.
Defined.

(** X10. The batch of a run that returns is made of the first [count]
    distinct codes the source delivers, in the order in which the loop
    first draws them. *)
Theorem generate_codes_first_seen (U : unicode_tables) (fuel : nat)
    (count : Z) (path : string) (r : rand) (w : world)
    (new_codes : list text) :
  generate_codes U fuel count path r w = Ret new_codes ->
  new_codes = take (Z.to_nat count) (first_seen ∅ (drawn_codes fuel r)).
Proof.
  rewrite generate_codes_loop.
  destruct (generate_loop fuel count r ∅ []) as [[[ex nc] r']| |] eqn:Hrun;
    try discriminate.
  simpl. intros [= <-].
  apply generate_loop_first_seen in Hrun. simpl in Hrun.
  now rewrite Nat.sub_0_r in Hrun.
Qed.

Lemma generate_codes_first_seen_witness :
  [str_of "GT-0000-0007"; str_of "GT-0000-0009"]
  = take (Z.to_nat 2)
      (first_seen ∅
         (drawn_codes 4 {| raw := fun i => if (i <? 3)%nat then 7 else 9;
                           pos := 0 |})).
Proof.
  apply (generate_codes_first_seen plain_tables 4 2 OUT_FILE_DEFAULT
           {| raw := fun i => if (i <? 3)%nat then 7 else 9; pos := 0 |}
           (one_file OUT_FILE_DEFAULT sample_content)).
  reflexivity.
Defined.

(** * Reading the file back *)

Section ReadBack.

Context (U : unicode_tables).

Lemma load_line_spec (existing : gset text) (line s : text) :
  s ∈ load_line U existing line <-> s ∈ existing \/ kept U line s.
Proof.
  unfold load_line, kept.
  remember (str_upper U (str_strip U line)) as t eqn:Ht. clear Ht.
  destruct (startswith (str_of "GT-") t) eqn:Hpre; cbn [andb].
  - destruct (Z.eqb_spec (Z.of_nat (length t)) 11) as [Hlen|Hlen].
    + rewrite elem_of_union, elem_of_singleton. split.
      * intros [->|Hs]; [right|now left]. repeat split; [assumption|lia].
      * intros [Hs|[-> _]]; [now right|now left].
    + split; [now left|]. intros [Hs|(-> & _ & Hl)]; [assumption|lia].
  - split; [now left|].
    intros [Hs|(-> & Hp & _)]; [assumption|congruence].
Qed.

Lemma load_lines_spec (lines : list text) :
  forall (existing : gset text) (s : text),
  s ∈ foldl (load_line U) existing lines
  <-> s ∈ existing \/ exists line, line ∈ lines /\ kept U line s.
Proof.
  induction lines as [|line lines IH]; intros existing s; simpl.
  - split; [now left|]. intros [Hs|(line & Hin & _)]; [assumption|].
    inversion Hin.
  - rewrite IH, load_line_spec. split.
    + intros [[Hs|Hk]|(l & Hin & Hk)].
      * now left.
      * right. exists line. split; [left|assumption].
      * right. exists l. split; [now right|assumption].
    + intros [Hs|(l & Hin & Hk)]; [now left; left|].
      apply elem_of_cons in Hin as [->|Hin]; [now left; right|].
      right. now exists l.
Qed.

(** A line that a set does not keep leaves the set as it is. *)
Lemma load_line_skip (existing : gset text) (line : text) :
  length (str_upper U (str_strip U line)) <> 11%nat ->
  load_line U existing line = existing.
Proof.
  intros Hlen. unfold load_line.
  destruct (Z.eqb_spec (Z.of_nat (length (str_upper U (str_strip U line)))) 11)
    as [Heq|_]; [lia|]. now rewrite andb_false_r.
Qed.

Lemma upper_alnum_plain (c : N) :
  is_upper_alnum c = true ->
  is_space U c = false /\ upper_char U c = [c].
Proof.
  unfold is_upper_alnum, is_space, upper_char, ascii_isspace, ascii_upper.
  intros H.
  assert (Hc : (48 <= c <= 57 \/ 65 <= c <= 90)%N).
  { apply orb_prop in H as [H|H]; apply andb_prop in H as [H1 H2];
      apply N.leb_le in H1, H2; lia. }
  destruct (N.ltb_spec c 128); [|lia].
  destruct (N.leb_spec 9 c), (N.leb_spec c 13), (N.leb_spec 28 c),
    (N.leb_spec c 32), (N.leb_spec 97 c), (N.leb_spec c 122);
    simpl; try lia; split; reflexivity.
Qed.

(** A well-formed code followed by a line feed is read as the code. *)
Lemma normalised_code_line (code : text) :
  gt_match is_upper_alnum code = true ->
  str_upper U (str_strip U (code ++ [LF])) = code.
Proof.
  intros H.
  destruct (gt_match_inv _ _ H) as (a & b & c & d & e & f & i & j & -> & Hcls).
  simpl in Hcls. repeat (apply andb_prop in Hcls as [? Hcls]).
  repeat match goal with
         | E : is_upper_alnum _ = true |- _ =>
             apply upper_alnum_plain in E as [? ?]
         end.
  unfold str_strip, rstrip, str_upper.
  change (lstrip U ([71; 84; 45; a; b; c; d; 45; e; f; i; j]%N ++ [LF]))
    with ([71; 84; 45; a; b; c; d; 45; e; f; i; j]%N ++ [LF]).
  change (rev ([71; 84; 45; a; b; c; d; 45; e; f; i; j]%N ++ [LF]))
    with [LF; j; i; f; e; 45; d; c; b; a; 45; 84; 71]%N.
  change (lstrip U [LF; j; i; f; e; 45; d; c; b; a; 45; 84; 71]%N)
    with (lstrip U [j; i; f; e; 45; d; c; b; a; 45; 84; 71]%N).
  cbn [lstrip].
  match goal with E : is_space U j = false |- _ => rewrite E end.
  cbn [rev app flat_map].
  repeat match goal with
         | E : upper_char U _ = _ |- _ => rewrite E; clear E
         end.
  reflexivity.
Qed.

Lemma load_code_lines (codes : list text) :
  Forall (fun c => gt_match is_upper_alnum c = true) codes ->
  forall existing : gset text,
  foldl (load_line U) existing (map (fun c => c ++ [LF]) codes) = existing.
Proof.
  induction 1 as [|c codes Hc _ IH]; intros existing; [reflexivity|].
  simpl. rewrite load_line_skip; [apply IH|].
  rewrite (normalised_code_line c Hc).
  destruct (gt_match_inv _ _ Hc) as (? & ? & ? & ? & ? & ? & ? & ? & -> & _).
  discriminate.
Qed.

End ReadBack.

(** X11. The set [load_existing] returns for a file is the set of the
    lines of the file, stripped and put in upper case, that start with
    [GT-] and have exactly 11 characters: the order of the lines and
    their repetitions do not count, and every other line is passed
    over. *)
Theorem load_existing_membership (U : unicode_tables) (w : world)
    (path : string) (existing : gset text) (s : text) :
  load_existing U w path = Ret existing ->
  s ∈ existing
  <-> exists content line,
        files w !! path = Some content
        /\ line ∈ file_lines content
        /\ s = str_upper U (str_strip U line)
        /\ startswith (str_of "GT-") s = true
        /\ length s = 11%nat.
Proof.
  intros Hload. destruct (files w !! path) as [content|] eqn:Hf.
  - rewrite (load_existing_present U w path content Hf) in Hload.
    injection Hload as <-. rewrite load_lines_spec. split.
    + intros [Hs|(line & Hin & Hk)]; [now apply not_elem_of_empty in Hs|].
      now exists content, line.
    + intros (c & line & [= <-] & Hin & Hk). right. now exists line.
  - rewrite (load_existing_absent U w path Hf) in Hload.
    injection Hload as <-. split.
    + intros Hs. now apply not_elem_of_empty in Hs.
    + intros (c & line & Hc & _). discriminate.
Qed.

Lemma load_existing_membership_witness :
  str_of "GT-ABCD-123" ∈ ({[ str_of "GT-ABCD-123" ]} : gset text)
  <-> exists content line,
        files (one_file OUT_FILE_DEFAULT
                 (str_of "x" ++ [LF] ++ str_of "  gt-abcd-123 " ++ [LF]))
          !! OUT_FILE_DEFAULT = Some content
        /\ line ∈ file_lines content
        /\ str_of "GT-ABCD-123"
           = str_upper plain_tables (str_strip plain_tables line)
        /\ startswith (str_of "GT-") (str_of "GT-ABCD-123") = true
        /\ length (str_of "GT-ABCD-123") = 11%nat.
Proof.
  apply (load_existing_membership plain_tables
           (one_file OUT_FILE_DEFAULT
              (str_of "x" ++ [LF] ++ str_of "  gt-abcd-123 " ++ [LF]))
           OUT_FILE_DEFAULT).
  rewrite (load_existing_present plain_tables _ _
             (str_of "x" ++ [LF] ++ str_of "  gt-abcd-123 " ++ [LF]))
    by reflexivity.
  reflexivity.
Defined.

(** X12. A run of [generate] on a file that is absent, empty or ended
    by a line feed does not change what [load_existing] returns for
    that file: none of the codes it appends is kept when the file is
    read back. *)
Theorem generate_keeps_loaded_set (U : unicode_tables) (fuel : nat)
    (count : Z) (path : string) (r r' : rand) (w w' : world) (n : Z) :
  generate U fuel count path r w = Ret (n, w', r') ->
  content_of w path = [] \/ (exists p, content_of w path = p ++ [LF]) ->
  load_existing U w' path = load_existing U w path.
Proof.
  intros Hrun Hprior. rewrite generate_loop_result in Hrun.
  destruct (generate_loop fuel count r ∅ []) as [[[ex nc] r1]| |] eqn:Hloop;
    try discriminate.
  simpl in Hrun. injection Hrun as _ <- _.
  destruct (generate_loop_inv _ _ _ _ _ _ _ _ Hloop)
    as (added & Hnc & _ & _ & _ & Hshape & _).
  simpl in Hnc. subst nc.
  assert (Hcodes : Forall (fun c => gt_match is_upper_alnum c = true) added)
    by (eapply Forall_impl; [exact Hshape|now intros c [_ Hc]]).
  rewrite (load_existing_present U _ _ _ (append_codes_content w path added)).
  rewrite file_lines_appended, foldl_app, load_code_lines; try assumption.
  - unfold content_of. destruct (files w !! path) as [content|] eqn:Hf.
    + now rewrite (load_existing_present U w path content Hf).
    + now rewrite (load_existing_absent U w path Hf).
  - eapply Forall_impl; [exact Hcodes|].
    intros c Hc. now apply gt_match_no_terminator.
Qed.

Lemma generate_keeps_loaded_set_witness :
  load_existing plain_tables
    (append_codes
       (one_file OUT_FILE_DEFAULT (str_of "GT-ABCD-123" ++ [LF]))
       OUT_FILE_DEFAULT [str_of "GT-0000-0000"]) OUT_FILE_DEFAULT
  = load_existing plain_tables
      (one_file OUT_FILE_DEFAULT (str_of "GT-ABCD-123" ++ [LF]))
      OUT_FILE_DEFAULT.
Proof.
  apply (generate_keeps_loaded_set plain_tables 1 1 OUT_FILE_DEFAULT
           (const_source 0) (advance (const_source 0))
           (one_file OUT_FILE_DEFAULT (str_of "GT-ABCD-123" ++ [LF]))
           (append_codes
              (one_file OUT_FILE_DEFAULT (str_of "GT-ABCD-123" ++ [LF]))
              OUT_FILE_DEFAULT [str_of "GT-0000-0000"]) 1).
  - rewrite generate_loop_result. reflexivity.
  - right. exists (str_of "GT-ABCD-123"). reflexivity.
Defined.

(** X13. When the prior content of the file ends with a line that has no
    terminator, the first code of an append is read back joined to
    that line; the codes that follow it are lines of their own. *)
Theorem appended_after_unterminated_line (w : world) (path : string)
    (p tail code : text) (codes : list text) :
  content_of w path = p ++ tail ->
  p = [] \/ (exists q, p = q ++ [LF]) ->
  LF ∉ tail -> CR ∉ tail ->
  Forall (fun c => gt_match is_upper_alnum c = true) (code :: codes) ->
  exists content,
    files (append_codes w path (code :: codes)) !! path = Some content
    /\ file_lines content
       = file_lines p
         ++ (tail ++ code ++ [LF]) :: map (fun c => c ++ [LF]) codes.
Proof.
  intros Hprior Hp Hlf Hcr Hcodes.
  eexists. split; [apply append_codes_content|].
  rewrite Hprior.
  replace ((p ++ tail) ++ code_lines (code :: codes))
    with (p ++ code_lines ((tail ++ code) :: codes))
    by (unfold code_lines; simpl; now rewrite <- !app_assoc).
  rewrite file_lines_appended; [simpl; now rewrite <- app_assoc|assumption|].
  apply Forall_cons_1 in Hcodes as [Hcode Hcodes].
  constructor.
  - apply gt_match_no_terminator in Hcode as [? ?].
    split; rewrite not_elem_of_app; now split.
  - eapply Forall_impl; [exact Hcodes|].
    intros c Hc. now apply gt_match_no_terminator.
Qed.

Lemma appended_after_unterminated_line_witness :
  exists content,
    files (append_codes (one_file OUT_FILE_DEFAULT (str_of "GT-ABCD-123"))
             OUT_FILE_DEFAULT [str_of "GT-0000-0000"; str_of "GT-0000-0001"])
      !! OUT_FILE_DEFAULT = Some content
    /\ file_lines content
       = file_lines []
         ++ (str_of "GT-ABCD-123" ++ str_of "GT-0000-0000" ++ [LF])
            :: map (fun c => c ++ [LF]) [str_of "GT-0000-0001"].
Proof.
  apply (appended_after_unterminated_line
           (one_file OUT_FILE_DEFAULT (str_of "GT-ABCD-123"))
           OUT_FILE_DEFAULT [] (str_of "GT-ABCD-123") (str_of "GT-0000-0000")
           [str_of "GT-0000-0001"]).
  - reflexivity.
  - left. reflexivity.
  - apply (bool_decide_unpack _). vm_compute. exact I.
  - apply (bool_decide_unpack _). vm_compute. exact I.
  - repeat constructor.
Defined.

(** * The command line *)

Section CommandLine.

Lemma main_unfold (U : unicode_tables) (fuel : nat) (given_count : option Z)
    (given_out : option string) (r : rand) (w : world) :
  main U fuel given_count given_out r w
  = match generate U fuel (default 500 given_count)
            (default OUT_FILE_DEFAULT given_out) r w with
    | Ret (created, w', r') =>
        Ret (str_of "Appended " ++ int_str created ++ str_of " GT codes to "
             ++ str_of (default OUT_FILE_DEFAULT given_out) ++ [LF], w', r')
    | Raise e => Raise e
    | OutOfFuel => OutOfFuel
    end.
Proof.
  unfold main, parse_args. simpl.
  now destruct (generate U fuel (default 500 given_count)
                  (default OUT_FILE_DEFAULT given_out) r w)
    as [[[? ?] ?]| |].
Qed.

End CommandLine.

(** X14. When [main] returns, the number it prints is the number of
    codes it has appended to the file named by [--out], which is
    [max 0 count] for the count of [--count]; an option that is not
    given stands for 500 codes and for the file [qr_codes.txt]. *)
Theorem main_reports_appended (U : unicode_tables) (fuel : nat)
    (given_count : option Z) (given_out : option string) (r r' : rand)
    (w w' : world) (printed : text) :
  main U fuel given_count given_out r w = Ret (printed, w', r') ->
  let count := default 500 given_count in
  let out := default OUT_FILE_DEFAULT given_out in
  exists new_codes,
    Z.of_nat (length new_codes) = Z.max 0 count
    /\ NoDup new_codes
    /\ files w' !! out = Some (content_of w out ++ code_lines new_codes)
    /\ printed
       = str_of "Appended " ++ int_str (Z.of_nat (length new_codes))
         ++ str_of " GT codes to " ++ str_of out ++ [LF].
Proof.
  intros Hmain count out. rewrite main_unfold in Hmain. fold count out in Hmain.
  destruct (generate U fuel count out r w) as [[[n w1] r1]| |] eqn:Hrun;
    try discriminate.
  injection Hmain as <- <- <-.
  destruct (load_existing_returns U w out) as [existing Hload].
  rewrite (generate_unfold U _ _ _ _ _ _ Hload) in Hrun.
  destruct (generate_loop fuel count r existing [])
    as [[[ex nc] r2]| |] eqn:Hloop; try discriminate.
  injection Hrun as <- <- <-.
  destruct (generate_loop_inv _ _ _ _ _ _ _ _ Hloop)
    as (added & Hnc & Hnd & _ & _ & _ & Hlen & Hnone).
  simpl in Hnc, Hlen, Hnone. subst nc.
  exists added. repeat split; try assumption.
  - destruct (Z.le_gt_cases 0 count) as [Hc|Hc].
    + rewrite Hlen by assumption. lia.
    + rewrite Hnone by lia. simpl. lia.
  - apply append_codes_content.
Qed.

Lemma main_reports_appended_witness :
  exists new_codes,
    Z.of_nat (length new_codes) = Z.max 0 2
    /\ NoDup new_codes
    /\ files
         (append_codes no_files "tiles.txt"
            [str_of "GT-0000-0000"; str_of "GT-0000-0001"]) !! "tiles.txt"
       = Some (content_of no_files "tiles.txt" ++ code_lines new_codes)
    /\ str_of "Appended 2 GT codes to tiles.txt" ++ [LF]
       = str_of "Appended " ++ int_str (Z.of_nat (length new_codes))
         ++ str_of " GT codes to " ++ str_of "tiles.txt" ++ [LF].
Proof.
  apply (main_reports_appended plain_tables 2 (Some 2) (Some "tiles.txt")
           counting_source {| raw := Z.of_nat; pos := 2 |} no_files
           (append_codes no_files "tiles.txt"
              [str_of "GT-0000-0000"; str_of "GT-0000-0001"])
           (str_of "Appended 2 GT codes to tiles.txt" ++ [LF])).
  reflexivity.
Defined.

(** X15. Run without options, [main] appends 500 codes to
    [qr_codes.txt] and prints that it has done so, whatever the file
    holds, as soon as the random source has delivered 500 distinct
    40-bit integers. *)
Theorem main_default_run (U : unicode_tables) (fuel : nat) (r : rand)
    (w : world) :
  500 <= Z.of_nat (size (list_to_set (draws fuel r) : gset Z)) ->
  exists new_codes r',
    main U fuel None None r w
    = Ret (str_of "Appended 500 GT codes to qr_codes.txt" ++ [LF],
           append_codes w OUT_FILE_DEFAULT new_codes, r')
    /\ length new_codes = 500%nat
    /\ NoDup new_codes.
Proof.
  intros Hdistinct.
  destruct (generate_loop_returns fuel 500 r ∅ []) as [[[ex nc] r'] Hrun].
  { rewrite difference_empty_L, size_drawn_codes. simpl. lia. }
  destruct (generate_loop_inv _ _ _ _ _ _ _ _ Hrun)
    as (added & Hnc & Hnd & _ & _ & _ & Hlen & _).
  simpl in Hnc, Hlen. subst nc. specialize (Hlen ltac:(lia)).
  exists added, r'.
  rewrite main_unfold. simpl default.
  rewrite generate_loop_result, Hrun. simpl loop_result. cbv iota beta.
  rewrite Hlen. split; [reflexivity|]. split; [lia|assumption].
Qed.

Lemma main_default_run_witness :
  exists new_codes r',
    main plain_tables 500 None None counting_source no_files
    = Ret (str_of "Appended 500 GT codes to qr_codes.txt" ++ [LF],
           append_codes no_files OUT_FILE_DEFAULT new_codes, r')
    /\ length new_codes = 500%nat
    /\ NoDup new_codes.
Proof.
  apply (main_default_run plain_tables 500 counting_source no_files).
  vm_compute. discriminate.
Defined.
